(** * ObservableOperation: the hot observable of a GraphQL operation

    A shallow embedding of the class [ObservableOperation]
    ([ObservableOperation.ts]) and of [src/graphql/errors.ts].

    The class is stateful and its methods throw, so the methods are
    written in a small state-and-exception monad over the fields of the
    instance.  A JavaScript exception does not undo the assignments made
    before it, hence a computation returns its completion (normal or
    thrown) together with the instance as it was left.

    What the class does not own is kept abstract:
    - the graph store ([ReduxGraphStore]) is an interface, a type class
      over the type of graph snapshots;
    - objects the class never looks into (variables, data) are named by
      their reference, and [===] is equality of references;
    - [setTimeout (f, 0)] appends [f] to a first-in first-out queue of
      pending callbacks, and the calls made to the observers' callbacks
      are recorded in a log (observers are taken to be passive: their
      callbacks do not call back into the operation). *)

From Stdlib Require Import List String Bool Arith Lia Sorted.
Import ListNotations.
Local Open Scope string_scope.
Local Open Scope nat_scope.
Local Open Scope list_scope.

(** ** Data *)

(** [src/graphql/errors.ts] *)
Record GraphQLError := {
  message : string;
  locations : option (list (nat * nat));
  path : option (list (string + nat))
}.

(** The reference of a [GraphQLObjectData] object. *)
Definition GraphQLObjectData := nat.

(** A variables object, by reference.  The constructor allocates one
    itself when [initialVariables] is omitted (the default [{}]); every
    other variables object comes from a caller. *)
Inductive Variables :=
| VariablesObject (reference : nat)
| DefaultInitialVariables.

Definition Variables_eqb (a b : Variables) : bool :=
  match a, b with
  | VariablesObject r, VariablesObject r' => r =? r'
  | DefaultInitialVariables, DefaultInitialVariables => true
  | _, _ => false
  end.

(** A thrown JavaScript value: an [Error] with its message, and the
    [_partialRead] property the graph store sets on a partial read error
    (absent, hence falsy, on every other error). *)
Record Error := {
  error_message : string;
  _partialRead : bool
}.

Definition new_Error (msg : string) : Error :=
  {| error_message := msg; _partialRead := false |}.

(** The AST nodes are opaque to the class; only [operation.operation] is
    inspected. *)
Inductive OperationTypeNode := query | mutation | subscription.

Definition OperationTypeNode_string (o : OperationTypeNode) : string :=
  match o with
  | query => "query"
  | mutation => "mutation"
  | subscription => "subscription"
  end.

Definition SelectionSetNode := string.
Definition FragmentMap := list (string * string).

Record OperationDefinitionNode := {
  operation : OperationTypeNode;
  selectionSet : SelectionSetNode
}.

(** [interface OperationState] *)
Record OperationState := {
  loading : bool;
  executing : bool;
  variables : Variables;
  canonical : bool;
  stale : bool;
  errors : list GraphQLError;
  data : option GraphQLObjectData
}.

(** [Partial<OperationState>]: an absent property is [None]. *)
Record PartialState := {
  p_loading : option bool;
  p_executing : option bool;
  p_variables : option Variables;
  p_canonical : option bool;
  p_stale : option bool;
  p_errors : option (list GraphQLError);
  p_data : option GraphQLObjectData
}.

Definition or_else {A} (o : option A) (d : A) : A :=
  match o with Some a => a | None => d end.

(** [{ ...state, ...partialState }] *)
Definition spread (state : OperationState) (partialState : PartialState)
  : OperationState :=
  {| loading := or_else (p_loading partialState) (loading state);
     executing := or_else (p_executing partialState) (executing state);
     variables := or_else (p_variables partialState) (variables state);
     canonical := or_else (p_canonical partialState) (canonical state);
     stale := or_else (p_stale partialState) (stale state);
     errors := or_else (p_errors partialState) (errors state);
     data := match p_data partialState with
             | Some d => Some d
             | None => data state
             end |}.

(** A state object.  [_state] is only ever replaced by a copy of itself
    made in [_updateState], so the objects form a chain and the position
    in the chain identifies the object. *)
Record StateObject := {
  ref : nat;
  value : OperationState
}.

(** [a === b] on state objects. *)
Definition same_object (a b : StateObject) : bool := ref a =? ref b.

(** An [Observer<OperationState>]: an object, with the callbacks it
    defines. *)
Record Observer := {
  observer_ref : nat;
  has_next : bool;
  has_error : bool
}.

Definition Observer_eqb (a b : Observer) : bool :=
  (observer_ref a =? observer_ref b)
  && Bool.eqb (has_next a) (has_next b)
  && Bool.eqb (has_error a) (has_error b).

(** What an observable sends to its observer. *)
Inductive Signal (T : Type) :=
| Next (v : T)
| Err (e : Error)
| Complete.
Arguments Next {T} v.
Arguments Err {T} e.
Arguments Complete {T}.

(** The result of one execution: [{ data, errors }]. *)
Record ExecutionResult := {
  result_data : GraphQLObjectData;
  result_errors : list GraphQLError
}.

Record ExecutorOptions := {
  eo_operation : OperationDefinitionNode;
  eo_fragments : option FragmentMap;
  eo_variables : Variables
}.

(** [ExecutorFn]: the list is what the returned observable sends while
    it is being subscribed to (a synchronous executor); what it sends
    afterwards arrives later, as events of their own. *)
Definition ExecutorFn := ExecutorOptions -> list (Signal ExecutionResult).

(** ** The graph store interface *)

Record WriteInput := {
  wi_id : option string;
  wi_selectionSet : SelectionSetNode;
  wi_data : GraphQLObjectData
}.

Record ReadInput := {
  ri_id : string;
  ri_selectionSet : SelectionSetNode;
  ri_fragments : option FragmentMap;
  ri_variables : Variables;
  ri_previousData : option GraphQLObjectData
}.

Record WatchInput := {
  wa_id : string;
  wa_selectionSet : SelectionSetNode;
  wa_fragments : option FragmentMap;
  wa_variables : Variables;
  wa_initialData : option GraphQLObjectData
}.

(** [{ data, stale }], what [read] returns and [watch] emits. *)
Record ReadResult := {
  read_data : GraphQLObjectData;
  read_stale : bool
}.

(** The three methods of [ReduxGraphStore] the class calls, over the
    snapshots [G] of the store.  [write] and [read] may throw; a [write]
    that throws leaves the snapshot as it was.  [watch] gives what the
    watch observable sends while it is being subscribed to. *)
Class ReduxGraphStore (G : Type) := {
  write : G -> WriteInput -> Error + (G * GraphQLObjectData);
  read : G -> ReadInput -> Error + ReadResult;
  watch : G -> WatchInput -> list (Signal ReadResult)
}.

(** ** The host: timers and observer calls *)

(** A callback handed to [setTimeout (..., 0)]. *)
Inductive Timer :=
| UpdateTimer (observer : Observer) (nextState : StateObject)
| PrimeTimer (observer : Observer)
| ErrorTimer (observer : Observer) (error : Error).

(** A call made to an observer. *)
Inductive Delivery :=
| NextCall (observer : Observer) (state : StateObject)
| ErrorCall (observer : Observer) (error : Error).

(** The subscription to the graph watch, with what its observer closes
    over. *)
Record WatchSubscription := {
  w_variables : Variables;
  w_initialData : option GraphQLObjectData
}.

(** The subscription to the executor's observable, with what its
    observer closes over. *)
Record ExecutionSubscription := {
  x_variables : Variables
}.

(** How a method call ends. *)
Inductive Completion (A : Type) :=
| Normal (a : A)
| Throw (e : Error).
Arguments Normal {A} a.
Arguments Throw {A} e.

Section Operation.

Context {G : Type} {store : ReduxGraphStore G}.

(** The private fields of the class, then the host's timer queue and the
    log of observer calls. *)
Record ObservableOperation := {
  _graph : G;
  _executor : ExecutorFn;
  _operation : OperationDefinitionNode;
  _fragments : option FragmentMap;
  _rootID : option string;
  _observers : list Observer;
  _watcher : option WatchSubscription;
  _execution : option ExecutionSubscription;
  _state : StateObject;
  timers : list Timer;
  delivered : list Delivery
}.

Definition set_graph (g : G) (this : ObservableOperation) :=
  {| _graph := g; _executor := _executor this;
     _operation := _operation this; _fragments := _fragments this;
     _rootID := _rootID this; _observers := _observers this;
     _watcher := _watcher this; _execution := _execution this;
     _state := _state this; timers := timers this;
     delivered := delivered this |}.

Definition set_observers (l : list Observer) (this : ObservableOperation) :=
  {| _graph := _graph this; _executor := _executor this;
     _operation := _operation this; _fragments := _fragments this;
     _rootID := _rootID this; _observers := l;
     _watcher := _watcher this; _execution := _execution this;
     _state := _state this; timers := timers this;
     delivered := delivered this |}.

Definition set_watcher (w : option WatchSubscription)
  (this : ObservableOperation) :=
  {| _graph := _graph this; _executor := _executor this;
     _operation := _operation this; _fragments := _fragments this;
     _rootID := _rootID this; _observers := _observers this;
     _watcher := w; _execution := _execution this;
     _state := _state this; timers := timers this;
     delivered := delivered this |}.

Definition set_execution (x : option ExecutionSubscription)
  (this : ObservableOperation) :=
  {| _graph := _graph this; _executor := _executor this;
     _operation := _operation this; _fragments := _fragments this;
     _rootID := _rootID this; _observers := _observers this;
     _watcher := _watcher this; _execution := x;
     _state := _state this; timers := timers this;
     delivered := delivered this |}.

Definition set_state (s : StateObject) (this : ObservableOperation) :=
  {| _graph := _graph this; _executor := _executor this;
     _operation := _operation this; _fragments := _fragments this;
     _rootID := _rootID this; _observers := _observers this;
     _watcher := _watcher this; _execution := _execution this;
     _state := s; timers := timers this;
     delivered := delivered this |}.

Definition set_timers (t : list Timer) (this : ObservableOperation) :=
  {| _graph := _graph this; _executor := _executor this;
     _operation := _operation this; _fragments := _fragments this;
     _rootID := _rootID this; _observers := _observers this;
     _watcher := _watcher this; _execution := _execution this;
     _state := _state this; timers := t;
     delivered := delivered this |}.

Definition set_delivered (d : list Delivery) (this : ObservableOperation) :=
  {| _graph := _graph this; _executor := _executor this;
     _operation := _operation this; _fragments := _fragments this;
     _rootID := _rootID this; _observers := _observers this;
     _watcher := _watcher this; _execution := _execution this;
     _state := _state this; timers := timers this;
     delivered := d |}.

(** ** The monad of methods *)

Definition M (A : Type) : Type :=
  ObservableOperation -> Completion A * ObservableOperation.

Definition ret {A} (a : A) : M A := fun this => (Normal a, this).

Definition bind {A B} (m : M A) (f : A -> M B) : M B :=
  fun this =>
    match m this with
    | (Normal a, this') => f a this'
    | (Throw e, this') => (Throw e, this')
    end.

Definition throw {A} (e : Error) : M A := fun this => (Throw e, this).

(** [try { m } catch (error) { handler error }] *)
Definition try_catch {A} (m : M A) (handler : Error -> M A) : M A :=
  fun this =>
    match m this with
    | (Normal a, this') => (Normal a, this')
    | (Throw e, this') => handler e this'
    end.

Definition get : M ObservableOperation := fun this => (Normal this, this).

Definition modify (f : ObservableOperation -> ObservableOperation) : M unit :=
  fun this => (Normal tt, f this).

End Operation.

Arguments ObservableOperation : clear implicits.
Arguments M : clear implicits.

Notation "x <- m ;; k" := (bind m (fun x => k))
  (at level 61, m at next level, right associativity).
Notation "m ;; k" := (bind m (fun _ => k))
  (at level 61, right associativity).

Section Methods.

Context {G : Type} {store : ReduxGraphStore G}.

(** [list.forEach (f)], for an [f] that may throw. *)
Fixpoint forEach {A} (l : list A) (f : A -> M G unit) : M G unit :=
  match l with
  | [] => ret tt
  | a :: l' => f a ;; forEach l' f
  end.

(** [setTimeout (callback, 0)] *)
Definition setTimeout (callback : Timer) : M G unit :=
  modify (fun this => set_timers (timers this ++ [callback]) this).

(** ** Private methods *)

(** [_updateState] *)
Definition _updateState (partialState : PartialState) : M G unit :=
  this <- get ;;
  let nextState :=
    {| ref := S (ref (_state this));
       value := spread (value (_state this)) partialState |} in
  modify (set_state nextState) ;;
  forEach (_observers this) (fun observer =>
    setTimeout (UpdateTimer observer nextState)).

(** [_error] *)
Definition _error (error : Error) : M G unit :=
  this <- get ;;
  forEach (_observers this) (fun observer =>
    setTimeout (ErrorTimer observer error)).

(** [_stopWatching] *)
Definition _stopWatching : M G unit :=
  this <- get ;;
  match _watcher this with
  | Some _ => modify (set_watcher None)
  | None => ret tt
  end.

(** The observer [_watch] subscribes to the graph watch: it closes over
    [variables] and [initialData]. *)
Definition watch_observer (w : WatchSubscription) (s : Signal ReadResult)
  : M G unit :=
  match s with
  | Next result =>
      this <- get ;;
      if negb (Variables_eqb (w_variables w) (variables (value (_state this))))
      then throw (new_Error
        "Operation variables changed without unsubscribing the graph watcher.")
      else
        if match w_initialData w with
           | Some d => read_data result =? d
           | None => false
           end && Bool.eqb (read_stale result) false
        then ret tt
        else _updateState
          {| p_loading := None; p_executing := None; p_variables := None;
             p_canonical := Some false;
             p_stale := Some (read_stale result);
             p_errors := None;
             p_data := Some (read_data result) |}
  | Err error => _error error
  | Complete => ret tt
  end.

(** [_watch] *)
Definition _watch : M G unit :=
  this <- get ;;
  match _rootID this with
  | None => ret tt
  | Some rootID =>
      match _watcher this with
      | Some _ => throw (new_Error
          "Cannot start watching the graph when the graph is currently being watched.")
      | None =>
          let w := {| w_variables := variables (value (_state this));
                      w_initialData := data (value (_state this)) |} in
          forEach
            (watch (_graph this)
               {| wa_id := rootID;
                  wa_selectionSet := selectionSet (_operation this);
                  wa_fragments := _fragments this;
                  wa_variables := w_variables w;
                  wa_initialData := w_initialData w |})
            (watch_observer w) ;;
          modify (set_watcher (Some w))
      end
  end.

(** [graph.write (input)], on the store the operation holds. *)
Definition graph_write (input : WriteInput) : M G GraphQLObjectData :=
  this <- get ;;
  match write (_graph this) input with
  | inl e => throw e
  | inr (g, d) => modify (set_graph g) ;; ret d
  end.

(** [graph.read (input)] *)
Definition graph_read (input : ReadInput) : M G ReadResult :=
  this <- get ;;
  match read (_graph this) input with
  | inl e => throw e
  | inr r => ret r
  end.

(** The observer [execute] subscribes to the executor's observable: it
    closes over [variables]. *)
Definition execution_observer (x : ExecutionSubscription)
  (s : Signal ExecutionResult) : M G unit :=
  match s with
  | Next result =>
      _stopWatching ;;
      if List.length (result_errors result) =? 0
      then
        this <- get ;;
        data <- graph_write
          {| wi_id := _rootID this;
             wi_selectionSet := selectionSet (_operation this);
             wi_data := result_data result |} ;;
        _updateState
          {| p_loading := Some false; p_executing := None;
             p_variables := Some (x_variables x);
             p_canonical := Some true;
             p_stale := Some false;
             p_errors := Some (result_errors result);
             p_data := Some data |} ;;
        _watch
      else
        _updateState
          {| p_loading := Some false; p_executing := None;
             p_variables := Some (x_variables x);
             p_canonical := Some true;
             p_stale := Some false;
             p_errors := Some (result_errors result);
             p_data := Some (result_data result) |}
  | Err error => _error error
  | Complete =>
      _updateState
        {| p_loading := Some false; p_executing := Some false;
           p_variables := None; p_canonical := None; p_stale := None;
           p_errors := None; p_data := None |}
  end.

(** ** Public methods *)

Definition already_executing : Error :=
  new_Error
    "Cannot start a new execution when another execution is currently running.".

(** [execute (variables = this._state.variables)]; [None] is an omitted
    argument. *)
Definition execute (variables_arg : option Variables) : M G unit :=
  this <- get ;;
  let vars := or_else variables_arg (variables (value (_state this))) in
  match _execution this with
  | Some _ => throw already_executing
  | None =>
      _updateState
        {| p_loading := Some true; p_executing := Some true;
           p_variables := None; p_canonical := None; p_stale := None;
           p_errors := None; p_data := None |} ;;
      let x := {| x_variables := vars |} in
      forEach
        (_executor this
           {| eo_operation := _operation this;
              eo_fragments := _fragments this;
              eo_variables := vars |})
        (execution_observer x) ;;
      modify (set_execution (Some x))
  end.

(** [stopExecuting] *)
Definition stopExecuting : M G unit :=
  this <- get ;;
  match _execution this with
  | Some _ =>
      modify (set_execution None) ;;
      _updateState
        {| p_loading := Some false; p_executing := Some false;
           p_variables := None; p_canonical := None; p_stale := None;
           p_errors := None; p_data := None |}
  | None => ret tt
  end.

(** [maybeExecute (variables = this._state.variables)] *)
Definition maybeExecute (variables_arg : option Variables) : M G unit :=
  this <- get ;;
  let vars := or_else variables_arg (variables (value (_state this))) in
  match _execution this with
  | Some _ => throw already_executing
  | None =>
      match _rootID this with
      | None => execute (Some vars)
      | Some rootID =>
          try_catch
            (result <- graph_read
               {| ri_id := rootID;
                  ri_selectionSet := selectionSet (_operation this);
                  ri_fragments := _fragments this;
                  ri_variables := vars;
                  ri_previousData := data (value (_state this)) |} ;;
             _updateState
               {| p_loading := None; p_executing := None;
                  p_variables := Some vars;
                  p_canonical := Some false;
                  p_stale := Some (read_stale result);
                  p_errors := None;
                  p_data := Some (read_data result) |} ;;
             _stopWatching ;;
             _watch)
            (fun error =>
               if _partialRead error
               then throw error
               else execute (Some vars))
      end
  end.

(** [getState] *)
Definition getState (this : ObservableOperation G) : OperationState :=
  value (_state this).

(** [_onSubscribe]; the function it returns is [unsubscribe] below. *)
Definition _onSubscribe (observer : Observer) : M G unit :=
  setTimeout (PrimeTimer observer) ;;
  modify (fun this => set_observers (_observers this ++ [observer]) this).

(** [array.indexOf (x)] then [array.splice (i, 1)] when [i > -1]: the
    first occurrence is removed. *)
Fixpoint remove_first (x : Observer) (l : list Observer) : list Observer :=
  match l with
  | [] => []
  | y :: l' => if Observer_eqb x y then l' else y :: remove_first x l'
  end.

Definition unsubscribe (observer : Observer) : M G unit :=
  modify (fun this =>
    set_observers (remove_first observer (_observers this)) this).

(** The constructor: the fields are initialised, then [_watch ()] runs on
    the new instance. *)
Definition constructor (graph : G) (executor : ExecutorFn)
  (operation_node : OperationDefinitionNode) (fragments : option FragmentMap)
  (initialVariables : option Variables)
  : Completion unit * ObservableOperation G :=
  _watch
    {| _graph := graph;
       _executor := executor;
       _operation := operation_node;
       _fragments := fragments;
       _rootID := match operation operation_node with
                  | mutation => None
                  | o => Some (OperationTypeNode_string o)
                  end;
       _observers := [];
       _watcher := None;
       _execution := None;
       _state :=
         {| ref := 0;
            value :=
              {| loading := false;
                 executing := false;
                 variables := or_else initialVariables DefaultInitialVariables;
                 canonical := false;
                 stale := false;
                 errors := [];
                 data := None |} |};
       timers := [];
       delivered := [] |}.

(** ** The host running a pending callback *)

(** The bodies of the three callbacks given to [setTimeout]. *)
Definition run_timer (t : Timer) : M G unit :=
  this <- get ;;
  match t with
  | UpdateTimer observer nextState =>
      if has_next observer && same_object (_state this) nextState
      then modify (set_delivered (delivered this ++ [NextCall observer nextState]))
      else ret tt
  | PrimeTimer observer =>
      if has_next observer
      then modify (set_delivered (delivered this ++ [NextCall observer (_state this)]))
      else ret tt
  | ErrorTimer observer error =>
      if has_error observer
      then modify (set_delivered (delivered this ++ [ErrorCall observer error]))
      else ret tt
  end.

(** The oldest pending callback fires. *)
Definition fire : M G unit :=
  this <- get ;;
  match timers this with
  | [] => ret tt
  | t :: pending => modify (set_timers pending) ;; run_timer t
  end.

(** Every pending callback fires, oldest first. *)
Definition flush : M G unit :=
  this <- get ;;
  modify (set_timers []) ;;
  forEach (timers this) run_timer.

End Methods.

(** ** Events *)

Section Events.

Context {G : Type} {store : ReduxGraphStore G}.

(** What can happen to an operation between two turns of the event
    loop: a call of a public method, a signal of the executor's
    observable to the current execution's observer, a signal of the
    graph watch to the current watcher's observer, a pending timer
    firing, or another writer changing the store.

    The observer [execute] hands to the executor never reads
    [_execution]: the executor can call it whether or not the handle is
    held (an [execute] that threw while subscribing holds none).
    [ExecutorSendsTo] is such a call, to the observer of any [execute]
    call; [ExecutorSends] is the case of the execution whose handle is
    held. *)
Inductive Event :=
| CallExecute (variables_arg : option Variables)
| CallMaybeExecute (variables_arg : option Variables)
| CallStopExecuting
| CallSubscribe (observer : Observer)
| CallUnsubscribe (observer : Observer)
| ExecutorSends (s : Signal ExecutionResult)
| WatchSends (s : Signal ReadResult)
| TimerFires
| StoreChanges (g : G)
| ExecutorSendsTo (x : ExecutionSubscription) (s : Signal ExecutionResult).

Definition handle (ev : Event) : M G unit :=
  match ev with
  | CallExecute v => execute v
  | CallMaybeExecute v => maybeExecute v
  | CallStopExecuting => stopExecuting
  | CallSubscribe o => _onSubscribe o
  | CallUnsubscribe o => unsubscribe o
  | ExecutorSends s =>
      this <- get ;;
      match _execution this with
      | Some x => execution_observer x s
      | None => ret tt
      end
  | WatchSends s =>
      this <- get ;;
      match _watcher this with
      | Some w => watch_observer w s
      | None => ret tt
      end
  | TimerFires => fire
  | StoreChanges g => modify (set_graph g)
  | ExecutorSendsTo x s => execution_observer x s
  end.

(** The instance an event leaves behind, whether the call returned or
    threw. *)
Definition after (ev : Event) (this : ObservableOperation G)
  : ObservableOperation G :=
  snd (handle ev this).

(** The instances an operation can be in: freshly constructed, or one
    event later than a reachable instance. *)
Inductive reachable : ObservableOperation G -> Prop :=
| reachable_new graph executor operation_node fragments initialVariables :
    reachable
      (snd (constructor graph executor operation_node fragments
              initialVariables))
| reachable_after ev this :
    reachable this -> reachable (after ev this).

End Events.

(** ** A store to run the operation on *)

(** Modelled from the spec: the graph store is not part of the class; for
    concrete runs a store of one object is enough.  Reading an empty
    store fails with a partial read error ([_partialRead] true), reading
    a broken one with another error; a write replaces the object and a
    watch emits the object held on subscription. *)
Inductive TestGraph :=
| EmptyGraph
| Holding (d : GraphQLObjectData)
| BrokenGraph.

Definition partial_read_error : Error :=
  {| error_message := "No scalar value found for field 'a'.";
     _partialRead := true |}.

Definition broken_store_error : Error :=
  new_Error "The store is broken.".

#[global] Instance TestStore : ReduxGraphStore TestGraph := {
  write g input :=
    match g with
    | BrokenGraph => inl broken_store_error
    | _ => inr (Holding (wi_data input), wi_data input)
    end;
  read g input :=
    match g with
    | EmptyGraph => inl partial_read_error
    | Holding d => inr {| read_data := d; read_stale := false |}
    | BrokenGraph => inl broken_store_error
    end;
  watch g input :=
    match g with
    | Holding d => [Next {| read_data := d; read_stale := false |}]
    | _ => []
    end
}.

(** An executor that answers later (nothing is sent on subscription). *)
Definition asynchronous_executor : ExecutorFn := fun _ => [].

Definition abc : OperationDefinitionNode :=
  {| operation := query; selectionSet := "{ a b c }" |}.

Definition an_observer : Observer :=
  {| observer_ref := 1; has_next := true; has_error := true |}.

(** A fresh operation for [{ a b c }] on an empty store. *)
Definition fresh_abc : ObservableOperation TestGraph :=
  snd (constructor EmptyGraph asynchronous_executor abc None None).

(** The fresh operation with one observer subscribed. *)
Definition observed_abc : ObservableOperation TestGraph :=
  after (CallSubscribe an_observer) fresh_abc.

(** A result with one error. *)
Definition an_error : GraphQLError :=
  {| message := "boom"; locations := None; path := None |}.

Definition errored_result : ExecutionResult :=
  {| result_data := 7; result_errors := [an_error] |}.

(** Two partial states of the class: the one [execute] starts with, and
    the one its [complete] handler ends with. *)
Definition now_loading : PartialState :=
  {| p_loading := Some true; p_executing := Some true;
     p_variables := None; p_canonical := None; p_stale := None;
     p_errors := None; p_data := None |}.


(** A fresh operation for [{ a b c }] on a store that holds the object
    [5]: the watch started by the constructor emits it at once. *)
Definition cached_abc : ObservableOperation TestGraph :=
  snd (constructor (Holding 5) asynchronous_executor abc None None).

(** A result without errors. *)
Definition clean_result : ExecutionResult :=
  {| result_data := 7; result_errors := [] |}.

(** An executor that answers and completes while it is being subscribed
    to. *)
Definition synchronous_executor : ExecutorFn :=
  fun _ => [Next clean_result; Complete].

Definition another_observer : Observer :=
  {| observer_ref := 2; has_next := true; has_error := false |}.

(** The fresh operation with two observers subscribed. *)
Definition twice_observed_abc : ObservableOperation TestGraph :=
  after (CallSubscribe another_observer) observed_abc.

(** A fresh operation whose executor answers at once, observed. *)
Definition synchronous_abc : ObservableOperation TestGraph :=
  after (CallSubscribe an_observer)
    (snd (constructor EmptyGraph synchronous_executor abc None None)).

(** A fresh operation for the mutation [{ a b c }]: the constructor
    accepts it and gives it no root ID. *)
Definition fresh_mutation : ObservableOperation TestGraph :=
  snd (constructor EmptyGraph asynchronous_executor
         {| operation := mutation; selectionSet := "{ a b c }" |}
         None None).

(** An operation left by an [execute] that threw: the executor sent its
    result at once and the store refused the write, so no execution
    handle is held although the executor has the observer. *)
Definition stuck_abc : ObservableOperation TestGraph :=
  after (CallExecute None)
    (snd (constructor BrokenGraph synchronous_executor abc None None)).

(** * Properties *)

Section Properties.

Context {G : Type} {store : ReduxGraphStore G}.

Implicit Types this : ObservableOperation G.
Implicit Types P Q R : ObservableOperation G -> Prop.

(** The state object [_updateState (partialState)] makes current. *)
Definition updated (partialState : PartialState) this : StateObject :=
  {| ref := S (ref (_state this));
     value := spread (value (_state this)) partialState |}.

(** The calls a list of callbacks makes when every one of them runs
    while [current] is the current state object. *)
Definition calls_of (current : StateObject) (t : Timer) : list Delivery :=
  match t with
  | UpdateTimer o nextState =>
      if has_next o && same_object current nextState
      then [NextCall o nextState] else []
  | PrimeTimer o => if has_next o then [NextCall o current] else []
  | ErrorTimer o e => if has_error o then [ErrorCall o e] else []
  end.

(** From an instance satisfying [P], the computation leaves an instance
    satisfying [Q] when it returns and [R] when it throws. *)
Definition hoare {A} P (m : M G A) Q R : Prop :=
  forall this, P this ->
    match m this with
    | (Normal _, this') => Q this'
    | (Throw _, this') => R this'
    end.

(** [executing = false] implies [loading = false]. *)
Definition consistent (s : OperationState) : Prop :=
  executing s = false -> loading s = false.

(** A partial state that keeps [consistent]: it does not clear
    [executing] without clearing [loading], and does not set [loading]
    without setting [executing]. *)
Definition lawful (p : PartialState) : Prop :=
  (p_executing p = Some false -> p_loading p = Some false)
  /\ (p_loading p = Some true -> p_executing p = Some true).

(** A pending callback of [_updateState] holds a consistent state. *)
Definition timer_consistent (t : Timer) : Prop :=
  match t with
  | UpdateTimer _ s => consistent (value s)
  | _ => True
  end.

(** The state object a pending callback of [_updateState] holds is the
    current one or an older one. *)
Definition timer_current (current : StateObject) (t : Timer) : Prop :=
  match t with
  | UpdateTimer _ s => ref s < ref current \/ s = current
  | _ => True
  end.

Definition punctual this : Prop :=
  Forall (timer_current (_state this)) (timers this).

Definition delivery_ok (d : Delivery) : Prop :=
  match d with
  | NextCall _ s => consistent (value s)
  | ErrorCall _ _ => True
  end.

Definition Base this : Prop :=
  consistent (value (_state this))
  /\ Forall timer_consistent (timers this)
  /\ Forall delivery_ok (delivered this)
  /\ punctual this.

(** [Base], and a condition on the watcher and the current variables. *)
Definition Framed (F : option WatchSubscription -> Variables -> Prop) this
  : Prop :=
  Base this /\ F (_watcher this) (variables (value (_state this))).

(** The active watcher was started with the variables of the current
    state. *)
Definition agrees (w : option WatchSubscription) (v : Variables) : Prop :=
  forall w', w = Some w' -> w_variables w' = v.

(** The graph is not being watched. *)
Definition stopped (w : option WatchSubscription) (v : Variables) : Prop :=
  w = None.

Definition Inv : ObservableOperation G -> Prop := Framed agrees.
Definition Stopped : ObservableOperation G -> Prop := Framed stopped.

(** The current state has variables [v]. *)
Definition has_variables (v : Variables) this : Prop :=
  variables (getState this) = v.

(** A result without errors. *)
Definition error_free (s : Signal ExecutionResult) : bool :=
  match s with
  | Next result => List.length (result_errors result) =? 0
  | _ => false
  end.

(** The partial states the class passes to [_updateState]: the flags
    set by [execute] and cleared by its [complete] handler and by
    [stopExecuting]; a result of the executor; an emission of the graph
    watch; a read of [maybeExecute]. *)
Inductive ClassPartial : PartialState -> Prop :=
| partial_flags b :
    ClassPartial
      {| p_loading := Some b; p_executing := Some b;
         p_variables := None; p_canonical := None; p_stale := None;
         p_errors := None; p_data := None |}
| partial_result v e d :
    ClassPartial
      {| p_loading := Some false; p_executing := None;
         p_variables := Some v; p_canonical := Some true;
         p_stale := Some false; p_errors := Some e; p_data := Some d |}
| partial_watched st d :
    ClassPartial
      {| p_loading := None; p_executing := None; p_variables := None;
         p_canonical := Some false; p_stale := Some st;
         p_errors := None; p_data := Some d |}
| partial_read v st d :
    ClassPartial
      {| p_loading := None; p_executing := None; p_variables := Some v;
         p_canonical := Some false; p_stale := Some st;
         p_errors := None; p_data := Some d |}.

(** The state a new operation starts in. *)
Definition initial_state (v : Variables) : OperationState :=
  {| loading := false; executing := false; variables := v;
     canonical := false; stale := false; errors := []; data := None |}.

(** The instance as the constructor has initialised it, before it calls
    [_watch]. *)
Definition initial_instance (graph : G) (executor : ExecutorFn)
  (operation_node : OperationDefinitionNode) (fragments : option FragmentMap)
  (initialVariables : option Variables) : ObservableOperation G :=
  {| _graph := graph;
     _executor := executor;
     _operation := operation_node;
     _fragments := fragments;
     _rootID := match operation operation_node with
                | mutation => None
                | o => Some (OperationTypeNode_string o)
                end;
     _observers := [];
     _watcher := None;
     _execution := None;
     _state :=
       {| ref := 0;
          value :=
            initial_state (or_else initialVariables DefaultInitialVariables) |};
     timers := [];
     delivered := [] |}.

(** Every state object of the instance satisfies [phi]: the current
    one, those held by pending callbacks, those handed to observers. *)
Definition every_state (phi : OperationState -> Prop) this : Prop :=
  phi (getState this)
  /\ (forall o s, In (UpdateTimer o s) (timers this) -> phi (value s))
  /\ (forall o s, In (NextCall o s) (delivered this) -> phi (value s)).

(** Stale data is not canonical. *)
Definition stale_not_canonical (s : OperationState) : Prop :=
  stale s = true -> canonical s = false.

(** A state without data has nothing of a result: it is neither
    canonical nor stale and has no errors. *)
Definition pristine_without_data (s : OperationState) : Prop :=
  data s = None -> canonical s = false /\ stale s = false /\ errors s = [].

(** The positions, in the chain of state objects, of the states handed
    to [next] callbacks, in the order of the calls. *)
Definition next_refs (ds : list Delivery) : list nat :=
  flat_map (fun d => match d with
                     | NextCall _ s => [ref s]
                     | ErrorCall _ _ => []
                     end) ds.

(** The states were handed out in the order they were made, none of them
    newer than the current one. *)
Definition in_order this : Prop :=
  Forall (fun n => n <= ref (_state this)) (next_refs (delivered this))
  /\ StronglySorted le (next_refs (delivered this)).

(** An error the store throws, from [write] or from [read]. *)
Definition store_error (e : Error) : Prop :=
  (exists g input, write g input = inl e)
  \/ (exists g input, read g input = inl e).

(** The errors a caller has to expect. *)
Definition expected (e : Error) : Prop :=
  e = already_executing \/ store_error e.

(** From an instance satisfying [P], the computation throws nothing but
    errors in [E]. *)
Definition throws {A} P (m : M G A) (E : Error -> Prop) : Prop :=
  forall this, P this ->
    forall e this', m this = (Throw e, this') -> E e.

(** The observer a pending callback will call. *)
Definition timer_observer (t : Timer) : Observer :=
  match t with
  | UpdateTimer o _ => o
  | PrimeTimer o => o
  | ErrorTimer o _ => o
  end.

(** The instance after the events [evs] have happened to [this], one
    after the other. *)
Fixpoint run (evs : list (Event (G := G))) this : ObservableOperation G :=
  match evs with
  | [] => this
  | ev :: later => run later (after ev this)
  end.





(** What is to happen when the graph watch started as [w] sends a
    signal: an emission of the very [initialData], not stale, is
    dropped; any other emission updates the state to canonical false,
    the emission's stale flag and the emission's data; an error goes to
    the observers. *)
Definition emission (w : WatchSubscription) (s : Signal ReadResult)
  : M G unit :=
  match s with
  | Next result =>
      if match w_initialData w with
         | Some d => read_data result =? d
         | None => false
         end && Bool.eqb (read_stale result) false
      then ret tt
      else _updateState
             {| p_loading := None; p_executing := None; p_variables := None;
                p_canonical := Some false;
                p_stale := Some (read_stale result);
                p_errors := None;
                p_data := Some (read_data result) |}
  | Err e => _error e
  | Complete => ret tt
  end.

(** Side conditions of [hoare_weaken]: the same assertion, or one that
    also remembers the instance read by [get]. *)
Ltac kept := let H := fresh in intros ? H; exact H.
Ltac forgetting := let H := fresh in intros ? [_ H]; exact H.

(** ** What the private methods compute *)

Lemma same_object_refl s : same_object s s = true.
Proof. apply Nat.eqb_refl. Qed.

Lemma Variables_eqb_refl v : Variables_eqb v v = true.
Proof. destruct v; simpl; [apply Nat.eqb_refl | reflexivity]. Qed.

Lemma forEach_setTimeout {A} (callback : A -> Timer) (l : list A) this :
  forEach l (fun a => setTimeout (callback a)) this
  = (Normal tt, set_timers (timers this ++ map callback l) this).
Proof.
  revert this; induction l as [|a l IH]; intros this; simpl.
  - unfold ret. destruct this; unfold set_timers; simpl.
    now rewrite app_nil_r.
  - unfold bind, setTimeout, modify. rewrite IH.
    destruct this; unfold set_timers; simpl.
    now rewrite <- app_assoc.
Qed.

Lemma _updateState_run partialState this :
  _updateState partialState this
  = (Normal tt,
     set_timers
       (timers this
        ++ map (fun o => UpdateTimer o (updated partialState this))
             (_observers this))
       (set_state (updated partialState this) this)).
Proof.
  unfold _updateState, bind, get, modify.
  now rewrite forEach_setTimeout.
Qed.

Lemma _error_run error this :
  _error error this
  = (Normal tt,
     set_timers
       (timers this ++ map (fun o => ErrorTimer o error) (_observers this))
       this).
Proof.
  unfold _error, bind, get. now rewrite forEach_setTimeout.
Qed.

Lemma run_timer_run t this :
  run_timer t this
  = (Normal tt,
     set_delivered (delivered this ++ calls_of (_state this) t) this).
Proof.
  unfold run_timer, bind, get, calls_of.
  destruct t as [o s|o|o e];
    [ destruct (has_next o && same_object (_state this) s)
    | destruct (has_next o) | destruct (has_error o) ];
    unfold modify, ret; try reflexivity;
    destruct this; unfold set_delivered; simpl; now rewrite app_nil_r.
Qed.

Lemma forEach_run_timer (ts : list Timer) this :
  forEach ts run_timer this
  = (Normal tt,
     set_delivered
       (delivered this ++ flat_map (calls_of (_state this)) ts) this).
Proof.
  revert this; induction ts as [|t ts IH]; intros this; simpl.
  - unfold ret. destruct this; unfold set_delivered; simpl.
    now rewrite app_nil_r.
  - unfold bind. rewrite run_timer_run, IH.
    destruct this; unfold set_delivered; simpl.
    now rewrite <- app_assoc.
Qed.

Lemma flush_run this :
  flush this
  = (Normal tt,
     set_delivered
       (delivered this ++ flat_map (calls_of (_state this)) (timers this))
       (set_timers [] this)).
Proof.
  unfold flush, bind, get, modify. now rewrite forEach_run_timer.
Qed.

(** ** A program logic for the methods *)

Lemma hoare_weaken {A} P P' (m : M G A) Q Q' R R' :
  hoare P m Q R ->
  (forall this, P' this -> P this) ->
  (forall this, Q this -> Q' this) ->
  (forall this, R this -> R' this) ->
  hoare P' m Q' R'.
Proof.
  intros Hm HP HQ HR this H. specialize (Hm this (HP this H)).
  destruct (m this) as [[a|e] this']; auto.
Qed.

Lemma hoare_ret {A} (a : A) P R : hoare P (ret a) P R.
Proof. intros this H. exact H. Qed.

Lemma hoare_throw {A} e P Q : hoare P (throw (A := A) e) Q P.
Proof. intros this H. exact H. Qed.

Lemma hoare_bind {A B} P (m : M G A) (f : A -> M G B) Q' Q R :
  hoare P m Q' R ->
  (forall a, hoare Q' (f a) Q R) ->
  hoare P (bind m f) Q R.
Proof.
  intros Hm Hf this H. unfold bind. specialize (Hm this H).
  destruct (m this) as [[a|e] this']; [exact (Hf a this' Hm) | exact Hm].
Qed.

(** [this <- get ;; ...]: the rest runs from the instance it read. *)
Lemma hoare_get {B} P (f : ObservableOperation G -> M G B) Q R :
  (forall this0, hoare (fun this => this = this0 /\ P this) (f this0) Q R) ->
  hoare P (bind get f) Q R.
Proof.
  intros Hf this H. unfold bind, get. exact (Hf this this (conj eq_refl H)).
Qed.

Lemma hoare_modify (f : ObservableOperation G -> ObservableOperation G) P Q R :
  (forall this, P this -> Q (f this)) ->
  hoare P (modify f) Q R.
Proof. intros Hf this H. exact (Hf this H). Qed.

Lemma hoare_try {A} P (m : M G A) (handler : Error -> M G A) Q R' R :
  hoare P m Q R' ->
  (forall e, hoare R' (handler e) Q R) ->
  hoare P (try_catch m handler) Q R.
Proof.
  intros Hm Hh this H. unfold try_catch. specialize (Hm this H).
  destruct (m this) as [[a|e] this']; [exact Hm | exact (Hh e this' Hm)].
Qed.

Lemma hoare_forEach {A} (l : list A) (f : A -> M G unit) P R :
  (forall a, hoare P (f a) P R) ->
  hoare P (forEach l f) P R.
Proof.
  intros Hf. induction l as [|a l IH]; simpl.
  - apply hoare_ret.
  - eapply hoare_bind; [apply Hf | intros _; exact IH].
Qed.

Lemma spread_consistent s p :
  lawful p -> consistent s -> consistent (spread s p).
Proof.
  intros [Hx Hl] Hs. unfold consistent, spread; simpl.
  destruct (p_executing p) as [[|]|] eqn:Ex; simpl; intros He.
  - discriminate.
  - now rewrite (Hx eq_refl).
  - destruct (p_loading p) as [[|]|] eqn:El; simpl; auto.
    specialize (Hl eq_refl). discriminate.
Qed.

Lemma Stopped_Inv this : Stopped this -> Inv this.
Proof.
  intros [Hb Hw]. split; [exact Hb|]. intros w E.
  unfold stopped in Hw. congruence.
Qed.

Lemma Forall_map_timer {A} (P : Timer -> Prop) (callback : A -> Timer)
  (l : list A) :
  (forall a, P (callback a)) -> Forall P (map callback l).
Proof.
  intros H. apply Forall_forall. intros t Hin. apply in_map_iff in Hin.
  destruct Hin as (a & <- & _). apply H.
Qed.

(** Whatever the partial state, the callbacks pending after an update
    hold the new state object or an older one. *)
Lemma punctual_updated p this :
  punctual this -> punctual (snd (_updateState p this)).
Proof.
  intros Ht. rewrite _updateState_run. unfold punctual. simpl.
  apply Forall_app. split.
  - eapply Forall_impl; [|exact Ht]. intros [o s|o|o e]; simpl; auto.
    intros [Hlt | ->]; left; lia.
  - apply Forall_map_timer. intros o. now right.
Qed.

Lemma Base_updated p this :
  lawful p -> Base this ->
  Base (snd (_updateState p this)).
Proof.
  intros Hp (Hs & Ht & Hd & Hc). pose proof (punctual_updated p this Hc) as Hc'.
  rewrite _updateState_run in *. simpl.
  assert (Hs' : consistent (spread (value (_state this)) p))
    by now apply spread_consistent.
  split; [exact Hs' | split; [|split; [exact Hd | exact Hc']]].
  apply Forall_app. split; [exact Ht|].
  apply Forall_map_timer. intros o. exact Hs'.
Qed.

Lemma spread_variables s p :
  variables (spread s p) = or_else (p_variables p) (variables s).
Proof. reflexivity. Qed.

(** An update that leaves [variables] alone keeps any condition on the
    watcher and the variables. *)
Lemma hoare_updateState F p R :
  lawful p -> p_variables p = None ->
  hoare (Framed F) (_updateState p) (Framed F) R.
Proof.
  intros Hp Hv this [H HF]. pose proof (Base_updated p this Hp H) as H'.
  rewrite _updateState_run in *. split; [exact H'|].
  change (F (_watcher this) (variables (spread (value (_state this)) p))).
  rewrite spread_variables, Hv. exact HF.
Qed.

(** An update made while the graph is not watched may change them. *)
Lemma hoare_updateState_Stopped p R :
  lawful p -> hoare Stopped (_updateState p) Stopped R.
Proof.
  intros Hp this [H Hw]. pose proof (Base_updated p this Hp H) as H'.
  rewrite _updateState_run in *. split; [exact H' | exact Hw].
Qed.

Lemma hoare_updateState_Base p R :
  lawful p -> hoare Base (_updateState p) Base R.
Proof.
  intros Hp this H. pose proof (Base_updated p this Hp H) as H'.
  rewrite _updateState_run in *. exact H'.
Qed.

Lemma hoare_error F e R : hoare (Framed F) (_error e) (Framed F) R.
Proof.
  intros this [(Hs & Ht & Hd & Hc) HF]. rewrite _error_run.
  split; [|exact HF]. split; [exact Hs | split; [|split; [exact Hd|]]].
  - simpl. apply Forall_app. split; [exact Ht|].
    apply Forall_map_timer. intros o. exact I.
  - unfold punctual. simpl. apply Forall_app. split; [exact Hc|].
    apply Forall_map_timer. intros o. exact I.
Qed.

Lemma hoare_stopWatching F R :
  hoare (Framed F) _stopWatching Stopped R.
Proof.
  apply hoare_get. intros this0 this [-> [H _]].
  destruct (_watcher this0) eqn:E; simpl.
  - split; [exact H | reflexivity].
  - split; [exact H | exact E].
Qed.

Lemma hoare_graph_write F input :
  hoare (Framed F) (graph_write input) (Framed F) (Framed F).
Proof.
  apply hoare_get. intros this0 this [-> H].
  destruct (write (_graph this0) input) as [e|[g d]]; simpl; exact H.
Qed.

Lemma hoare_graph_read P input :
  hoare P (graph_read input) P P.
Proof.
  apply hoare_get. intros this0 this [-> H].
  destruct (read (_graph this0) input) as [e|r]; simpl; exact H.
Qed.

(** The two partial states that only touch the flags. *)
Lemma lawful_flags b :
  lawful {| p_loading := Some b; p_executing := Some b;
            p_variables := None; p_canonical := None; p_stale := None;
            p_errors := None; p_data := None |}.
Proof. split; simpl; intros E; exact E. Qed.

Lemma lawful_loaded v c s e d :
  lawful {| p_loading := Some false; p_executing := None;
            p_variables := v; p_canonical := c; p_stale := s;
            p_errors := e; p_data := d |}.
Proof. split; simpl; intros E; discriminate. Qed.

Lemma lawful_data v c s e d :
  lawful {| p_loading := None; p_executing := None;
            p_variables := v; p_canonical := c; p_stale := s;
            p_errors := e; p_data := d |}.
Proof. split; simpl; intros E; discriminate. Qed.

(** The watch observer keeps any condition on the watcher and the
    variables: it never touches either. *)
Lemma hoare_watch_observer F w s :
  hoare (Framed F) (watch_observer w s) (Framed F) (Framed F).
Proof.
  destruct s as [result|e|]; simpl.
  - apply hoare_get. intros this0.
    destruct (negb _).
    + intros this [_ H]. exact H.
    + destruct (_ && _).
      * intros this [_ H]. exact H.
      * eapply hoare_weaken;
          [ apply (hoare_updateState F); [apply lawful_data | reflexivity]
          | intros this [_ H]; exact H | auto | intros this H; exact H ].
  - apply hoare_error.
  - apply hoare_ret.
Qed.

Lemma hoare_watch : hoare Stopped _watch Inv Inv.
Proof.
  apply hoare_get. intros this0.
  destruct (_rootID this0) as [rootID|].
  - destruct (_watcher this0) as [w|] eqn:Ew.
    + intros this [_ H]. now apply Stopped_Inv.
    + set (F := fun (w : option WatchSubscription) v =>
                  w = None /\ v = variables (value (_state this0))).
      eapply hoare_bind with (Q' := Framed F).
      * eapply hoare_weaken;
          [ apply (hoare_forEach _ _ (Framed F) (Framed F));
            intros s; apply hoare_watch_observer
          | intros this [-> [H Hw]]; split; [exact H | split; [exact Hw | reflexivity]]
          | auto
          | intros this [H [Hw _]]; apply Stopped_Inv; split; [exact H | exact Hw] ].
      * intros _. apply hoare_modify. intros this [H [_ Hv]].
        split; [exact H|]. intros w' E. simpl in E.
        injection E as <-. simpl. now rewrite Hv.
  - intros this [_ H]. now apply Stopped_Inv.
Qed.

Lemma hoare_execution_observer x s :
  hoare Inv (execution_observer x s) Inv Inv.
Proof.
  destruct s as [result|e|]; simpl.
  - eapply hoare_bind; [apply (hoare_stopWatching agrees)|]. intros _.
    destruct (_ =? 0).
    + apply hoare_get. intros this0.
      eapply hoare_bind with (Q' := Stopped).
      * eapply hoare_weaken;
          [ apply (hoare_graph_write stopped)
          | forgetting | kept | apply Stopped_Inv ].
      * intros d. eapply hoare_bind;
          [ apply hoare_updateState_Stopped, lawful_loaded
          | intros _; apply hoare_watch ].
    + eapply hoare_weaken;
        [ apply hoare_updateState_Stopped, lawful_loaded
        | kept | apply Stopped_Inv | kept ].
  - apply hoare_error.
  - apply hoare_updateState; [apply lawful_flags | reflexivity].
Qed.

Lemma hoare_execute v : hoare Inv (execute v) Inv Inv.
Proof.
  apply hoare_get. intros this0.
  destruct (_execution this0).
  - intros this [_ H]. exact H.
  - eapply hoare_bind with (Q' := Inv).
    + eapply hoare_weaken;
        [ apply (hoare_updateState agrees); [apply lawful_flags | reflexivity]
        | forgetting | kept | kept ].
    + intros _. eapply hoare_bind.
      * apply hoare_forEach. intros s. apply hoare_execution_observer.
      * intros _. apply hoare_modify. intros this H. exact H.
Qed.

Lemma hoare_stopExecuting : hoare Inv stopExecuting Inv Inv.
Proof.
  apply hoare_get. intros this0.
  destruct (_execution this0).
  - eapply hoare_bind with (Q' := Inv).
    + apply hoare_modify. intros this [_ H]. exact H.
    + intros _. apply hoare_updateState; [apply lawful_flags | reflexivity].
  - intros this [_ H]. exact H.
Qed.

Lemma hoare_maybeExecute v : hoare Inv (maybeExecute v) Inv Inv.
Proof.
  apply hoare_get. intros this0.
  destruct (_execution this0).
  { intros this [_ H]. exact H. }
  destruct (_rootID this0) as [rootID|].
  - apply hoare_try with (R' := Inv).
    + eapply hoare_bind with (Q' := Inv).
      * eapply hoare_weaken;
          [ apply hoare_graph_read
          | forgetting | kept | kept ].
      * intros result. eapply hoare_bind with (Q' := Base).
        -- eapply hoare_weaken;
             [ apply hoare_updateState_Base, lawful_data
             | intros this [H _]; exact H | kept | kept ].
        -- intros _. eapply hoare_bind with (Q' := Stopped).
           ++ intros this H.
              exact (hoare_stopWatching (fun _ _ => True) Inv this
                       (conj H I)).
           ++ intros _. apply hoare_watch.
    + intros e. destruct (_partialRead e).
      * apply hoare_throw.
      * apply hoare_execute.
  - eapply hoare_weaken;
      [ apply hoare_execute
      | forgetting | kept | kept ].
Qed.

Lemma calls_ok current t :
  consistent (value current) -> timer_consistent t ->
  Forall delivery_ok (calls_of current t).
Proof.
  intros Hc Ht. destruct t as [o s|o|o e]; simpl.
  - destruct (_ && _); constructor; [exact Ht | constructor].
  - destruct (has_next o); constructor; [exact Hc | constructor].
  - destruct (has_error o); constructor; [exact I | constructor].
Qed.

Lemma hoare_fire F : hoare (Framed F) fire (Framed F) (Framed F).
Proof.
  apply hoare_get. intros this0 this [-> [(Hs & Ht & Hd & Hc) HF]].
  unfold punctual in Hc.
  destruct (timers this0) as [|t pending] eqn:E.
  - split; [|exact HF]. unfold Base, punctual. rewrite E. auto.
  - unfold bind, modify. rewrite run_timer_run. simpl.
    inversion Ht as [|? ? Hok Hpending]; subst.
    inversion Hc as [|? ? _ Hcurrent]; subst.
    split; [|exact HF].
    split; [exact Hs | split; [exact Hpending | split; [|exact Hcurrent]]].
    simpl. apply Forall_app. split; [exact Hd|].
    exact (calls_ok _ _ Hs Hok).
Qed.

Lemma hoare_onSubscribe F o :
  hoare (Framed F) (_onSubscribe o) (Framed F) (Framed F).
Proof.
  intros this [(Hs & Ht & Hd & Hc) HF].
  unfold _onSubscribe, bind, setTimeout, modify.
  simpl. split; [|exact HF].
  split; [exact Hs | split; [|split; [exact Hd|]]].
  - simpl. apply Forall_app. split; [exact Ht|]. now constructor.
  - unfold punctual. simpl. apply Forall_app. split; [exact Hc|].
    now constructor.
Qed.

Lemma hoare_handle ev : hoare Inv (handle ev) Inv Inv.
Proof.
  destruct ev as [v|v| |o|o|s|s| |g|x s]; simpl.
  - apply hoare_execute.
  - apply hoare_maybeExecute.
  - apply hoare_stopExecuting.
  - apply hoare_onSubscribe.
  - apply hoare_modify. intros this H. exact H.
  - apply hoare_get. intros this0. destruct (_execution this0) as [x|].
    + eapply hoare_weaken;
        [ apply hoare_execution_observer
        | forgetting | kept | kept ].
    + intros this [_ H]. exact H.
  - apply hoare_get. intros this0. destruct (_watcher this0) as [w|].
    + eapply hoare_weaken;
        [ apply (hoare_watch_observer agrees)
        | forgetting | kept | kept ].
    + intros this [_ H]. exact H.
  - apply hoare_fire.
  - apply hoare_modify. intros this H. exact H.
  - apply hoare_execution_observer.
Qed.

Lemma Inv_after ev this : Inv this -> Inv (after ev this).
Proof.
  intros H. pose proof (hoare_handle ev this H) as H'. unfold after.
  destruct (handle ev this) as [[a|e] this']; exact H'.
Qed.

Lemma Inv_constructor graph executor operation_node fragments initialVariables :
  Inv (snd (constructor graph executor operation_node fragments
              initialVariables)).
Proof.
  unfold constructor.
  match goal with |- Inv (snd (_watch ?this)) =>
    assert (H : Stopped this)
      by (split; [split; [intros _; reflexivity | repeat split; constructor]
                 | reflexivity]);
    pose proof (hoare_watch this H) as H';
    destruct (_watch this) as [[a|e] this']; exact H'
  end.
Qed.

(** Every reachable instance satisfies the invariants. *)
Lemma reachable_Inv this : reachable this -> Inv this.
Proof.
  induction 1 as [graph executor operation_node fragments initialVariables
                 | ev this Hr IH].
  - apply Inv_constructor.
  - now apply Inv_after.
Qed.

(** ** The methods on the paths the specification speaks of *)


(** The [complete] handler of [execute] leaves [_execution] set, and
    [execute] throws for as long as it is. *)
Lemma complete_keeps_execution this x :
  _execution this = Some x ->
  _execution (after (ExecutorSends Complete) this) = Some x
  /\ forall v,
       fst (execute v (after (ExecutorSends Complete) this))
       = Throw already_executing.
Proof.
  intros Hx.
  assert (E : _execution (after (ExecutorSends Complete) this) = Some x).
  { unfold after, handle, bind, get. rewrite Hx.
    unfold execution_observer. rewrite _updateState_run. exact Hx. }
  split; [exact E|]. intros v. unfold execute, bind, get.
  now rewrite E.
Qed.

(** ** Variables, and results with errors *)

Lemma hoare_updateState_keeps v p R :
  p_variables p = None ->
  hoare (has_variables v) (_updateState p) (has_variables v) R.
Proof.
  intros Hp this H. rewrite _updateState_run.
  unfold has_variables, getState in *. simpl. now rewrite Hp.
Qed.

Lemma hoare_updateState_sets v p P R :
  p_variables p = Some v ->
  hoare P (_updateState p) (has_variables v) R.
Proof.
  intros Hp this _. rewrite _updateState_run.
  unfold has_variables, getState. simpl. now rewrite Hp.
Qed.

Lemma hoare_watch_observer_keeps v w s :
  hoare (has_variables v) (watch_observer w s)
    (has_variables v) (has_variables v).
Proof.
  destruct s as [result|e|]; simpl.
  - apply hoare_get. intros this0. destruct (negb _).
    + intros this [_ H]. exact H.
    + destruct (_ && _).
      * intros this [_ H]. exact H.
      * eapply hoare_weaken;
          [ apply (hoare_updateState_keeps v); reflexivity
          | forgetting | kept | kept ].
  - intros this H. rewrite _error_run. exact H.
  - apply hoare_ret.
Qed.

Lemma hoare_watch_keeps v :
  hoare (has_variables v) _watch (has_variables v) (has_variables v).
Proof.
  apply hoare_get. intros this0.
  destruct (_rootID this0) as [rootID|].
  - destruct (_watcher this0) as [w|].
    + intros this [_ H]. exact H.
    + eapply hoare_bind with (Q' := has_variables v).
      * eapply hoare_weaken;
          [ apply hoare_forEach; intros s; apply hoare_watch_observer_keeps
          | forgetting | kept | kept ].
      * intros _. apply hoare_modify. intros this H. exact H.
  - intros this [_ H]. exact H.
Qed.

(** A result that is handled to the end sets the variables to those of
    the [execute] call it answers. *)
Lemma result_sets_variables x result this :
  fst (execution_observer x (Next result) this) = Normal tt ->
  has_variables (x_variables x)
    (snd (execution_observer x (Next result) this)).
Proof.
  assert (H : hoare (fun _ => True) (execution_observer x (Next result))
                (has_variables (x_variables x)) (fun _ => True)).
  { simpl. eapply hoare_bind with (Q' := fun _ => True).
    - intros this' _. now destruct (_stopWatching this') as [[|] ?].
    - intros _. destruct (_ =? 0).
      + apply hoare_get. intros this0.
        eapply hoare_bind with (Q' := fun _ => True).
        * intros this' _. now destruct (graph_write _ this') as [[|] ?].
        * intros d. eapply hoare_bind.
          -- apply (hoare_updateState_sets (x_variables x)). reflexivity.
          -- intros _. eapply hoare_weaken;
               [ apply hoare_watch_keeps | kept | kept | auto ].
      + apply (hoare_updateState_sets (x_variables x)). reflexivity. }
  intros E. specialize (H this I).
  destruct (execution_observer x (Next result) this) as [[a|e] this'];
    [exact H | discriminate].
Qed.

(** The watch observer does not throw while the variables are those it
    was created with. *)
Lemma hoare_watch_observer_returns w s :
  hoare (has_variables (w_variables w)) (watch_observer w s)
    (has_variables (w_variables w)) (fun _ => False).
Proof.
  destruct s as [result|e|]; simpl.
  - apply hoare_get. intros this0.
    destruct (negb _) eqn:Ev.
    + intros this [-> H]. unfold has_variables, getState in H.
      rewrite <- H, Variables_eqb_refl in Ev. discriminate.
    + destruct (_ && _).
      * intros this [_ H]. exact H.
      * eapply hoare_weaken;
          [ apply (hoare_updateState_keeps (w_variables w)); reflexivity
          | forgetting | kept | kept ].
  - intros this H. rewrite _error_run. exact H.
  - apply hoare_ret.
Qed.

(** [_watch] returns when the graph is not being watched. *)
Lemma _watch_returns this :
  _watcher this = None -> fst (_watch this) = Normal tt.
Proof.
  intros Hw.
  assert (H : hoare (fun this' => this' = this) _watch
                (fun _ => True) (fun _ => False)).
  { apply hoare_get. intros this0.
    destruct (_rootID this0) as [rootID|].
    - destruct (_watcher this0) as [w|] eqn:Ew.
      + intros this' [-> ->]. congruence.
      + eapply hoare_bind
          with (Q' := has_variables (variables (value (_state this0)))).
        * eapply hoare_weaken;
            [ apply hoare_forEach; intros s;
              apply (hoare_watch_observer_returns
                       {| w_variables := variables (value (_state this0));
                          w_initialData := data (value (_state this0)) |})
            | intros this' [-> _]; reflexivity | kept | kept ].
        * intros _. apply hoare_modify. auto.
    - intros this' _. exact I. }
  specialize (H this eq_refl).
  destruct (_watch this) as [[[]|e] this']; [reflexivity | contradiction].
Qed.

(** The constructor returns, whatever the kind of the operation. *)
Lemma constructor_returns graph executor operation_node fragments
  initialVariables :
  fst (constructor graph executor operation_node fragments initialVariables)
  = Normal tt.
Proof. unfold constructor. now apply _watch_returns. Qed.

Lemma _stopWatching_run this :
  _stopWatching this
  = (Normal tt,
     match _watcher this with
     | Some _ => set_watcher None this
     | None => this
     end).
Proof.
  unfold _stopWatching, bind, get. now destruct (_watcher this).
Qed.

(** What the [next] handler of [execute] does with a result that has
    errors. *)
Lemma errored_result_run x result this :
  result_errors result <> [] ->
  execution_observer x (Next result) this
  = _updateState
      {| p_loading := Some false; p_executing := None;
         p_variables := Some (x_variables x);
         p_canonical := Some true; p_stale := Some false;
         p_errors := Some (result_errors result);
         p_data := Some (result_data result) |}
      (match _watcher this with
       | Some _ => set_watcher None this
       | None => this
       end).
Proof.
  intros He. unfold execution_observer, bind at 1.
  rewrite _stopWatching_run.
  destruct (result_errors result) as [|g l]; [congruence | reflexivity].
Qed.

Lemma hoare_forEach_in {A} (l : list A) (f : A -> M G unit)
  (P : ObservableOperation G -> Prop) :
  (forall a, In a l -> hoare P (f a) P P) ->
  hoare P (forEach l f) P P.
Proof.
  induction l as [|a l IH]; intros Hf; simpl.
  - apply hoare_ret.
  - eapply hoare_bind; [apply Hf; now left|].
    intros _. apply IH. intros b Hb. apply Hf. now right.
Qed.

(** Signals other than a result without errors leave a stopped watch
    stopped. *)
Lemma hoare_stays_stopped x s :
  error_free s = false ->
  hoare (fun this => _watcher this = None) (execution_observer x s)
    (fun this => _watcher this = None) (fun this => _watcher this = None).
Proof.
  intros Hs this Hw. destruct s as [result|e|].
  - simpl in Hs. rewrite errored_result_run
      by (intros E; rewrite E in Hs; discriminate).
    rewrite _updateState_run, Hw. exact Hw.
  - simpl. rewrite _error_run. exact Hw.
  - simpl. rewrite _updateState_run. exact Hw.
Qed.

(** [execute] when nothing is executing and the executor answers
    later. *)
Lemma execute_asynchronous_run this v :
  _execution this = None ->
  _executor this
    {| eo_operation := _operation this;
       eo_fragments := _fragments this;
       eo_variables := or_else v (variables (getState this)) |} = [] ->
  execute v this
  = (Normal tt,
     set_execution
       (Some {| x_variables := or_else v (variables (getState this)) |})
       (snd (_updateState
               {| p_loading := Some true; p_executing := Some true;
                  p_variables := None; p_canonical := None;
                  p_stale := None; p_errors := None; p_data := None |}
               this))).
Proof.
  intros Hx He. unfold getState in *.
  unfold execute, bind at 1, get. rewrite Hx.
  unfold bind at 1. rewrite _updateState_run.
  unfold bind. rewrite He. reflexivity.
Qed.

(** [execute (v)] itself leaves the [variables] of the state as they
    were, so the loading state between the call and its first result
    still carries the previous variables; [variables] becomes [v] when
    a result of that execution is handled.  A new operation has the
    initial variables. *)
Lemma variables_change_with_results this v :
  _execution this = None ->
  _executor this
    {| eo_operation := _operation this;
       eo_fragments := _fragments this;
       eo_variables := v |} = [] ->
  let running := after (CallExecute (Some v)) this in
  loading (getState running) = true
  /\ executing (getState running) = true
  /\ variables (getState running) = variables (getState this)
  /\ _execution running = Some {| x_variables := v |}
  /\ (forall result,
        fst (handle (ExecutorSends (Next result)) running) = Normal tt ->
        variables (getState (after (ExecutorSends (Next result)) running))
        = v)
  /\ (forall graph executor operation_node fragments initialVariables,
        variables
          (getState
             (snd (constructor graph executor operation_node fragments
                     initialVariables)))
        = or_else initialVariables DefaultInitialVariables).
Proof.
  intros Hx He running.
  assert (Er : running
               = set_execution (Some {| x_variables := v |})
                   (snd (_updateState
                           {| p_loading := Some true; p_executing := Some true;
                              p_variables := None; p_canonical := None;
                              p_stale := None; p_errors := None;
                              p_data := None |} this))).
  { unfold running, after, handle.
    now rewrite (execute_asynchronous_run this (Some v) Hx He). }
  rewrite _updateState_run in Er.
  do 4 (split; [rewrite Er; reflexivity|]). split.
  - intros result. unfold after, handle, bind, get.
    replace (_execution running) with (Some {| x_variables := v |})
      by (rewrite Er; reflexivity).
    apply (result_sets_variables {| x_variables := v |}).
  - intros graph executor operation_node fragments initialVariables.
    unfold constructor.
    match goal with |- variables (getState (snd (_watch ?new))) = ?iv =>
      pose proof (hoare_watch_keeps iv new eq_refl) as H;
      destruct (_watch new) as [[a|e] this']; exact H
    end.
Qed.

(** C5: a result of the executor whose [errors] are not empty is not
    written to the graph: handling it leaves the snapshot as it was,
    sets the state to loading false, the variables of the [execute]
    call, canonical true, stale false, the result's errors and the
    result's own data, and leaves the graph unwatched; the watch stays
    stopped through the signals that follow until a result without
    errors comes. *)
Theorem errored_result_is_not_written this x result
  (later : list (Signal ExecutionResult)) :
  result_errors result <> [] ->
  forallb (fun s => negb (error_free s)) later = true ->
  let handled := execution_observer x (Next result) this in
  fst handled = Normal tt
  /\ _graph (snd handled) = _graph this
  /\ getState (snd handled)
     = {| loading := false;
          executing := executing (getState this);
          variables := x_variables x;
          canonical := true;
          stale := false;
          errors := result_errors result;
          data := Some (result_data result) |}
  /\ _watcher (snd handled) = None
  /\ _watcher (snd (forEach later (execution_observer x) (snd handled)))
     = None.
Proof.
  intros He Hl handled.
  assert (E : handled = execution_observer x (Next result) this)
    by reflexivity.
  rewrite (errored_result_run x result this He), _updateState_run in E.
  assert (Hw : _watcher (snd handled) = None)
    by (rewrite E; simpl; now destruct (_watcher this) eqn:Ew).
  do 3 (split; [rewrite E; simpl; now destruct (_watcher this) eqn:Ew|]).
  split; [exact Hw|].
  assert (H : hoare (fun this => _watcher this = None)
                (forEach later (execution_observer x))
                (fun this => _watcher this = None)
                (fun this => _watcher this = None)).
  { apply hoare_forEach_in. intros s Hs. apply hoare_stays_stopped.
    rewrite forallb_forall in Hl. specialize (Hl s Hs).
    now destruct (error_free s). }
  specialize (H (snd handled) Hw).
  destruct (forEach later (execution_observer x) (snd handled))
    as [[a|e] this']; exact H.
Qed.

(** C6: in every state an operation can reach, and in every state it
    has handed to an observer, [executing = false] implies
    [loading = false]. *)
Theorem executing_false_implies_loading_false this :
  reachable this ->
  (executing (getState this) = false -> loading (getState this) = false)
  /\ (forall o s, In (NextCall o s) (delivered this) ->
        executing (value s) = false -> loading (value s) = false).
Proof.
  intros Hr. destruct (reachable_Inv this Hr) as [(Hs & _ & Hd & _) _].
  split; [exact Hs|]. intros o s Hin.
  rewrite Forall_forall in Hd. exact (Hd _ Hin).
Qed.

(** When the callbacks of one update run while its state is still
    current, every observer with a [next] gets that state. *)
Lemma calls_of_update current (l : list Observer) :
  flat_map (calls_of current) (map (fun o => UpdateTimer o current) l)
  = map (fun o => NextCall o current) (filter has_next l).
Proof.
  induction l as [|o l IH]; simpl; [reflexivity|].
  rewrite same_object_refl, andb_true_r, IH. now destruct (has_next o).
Qed.

(** Among callbacks that hold the current state object or an older one,
    only the current state is ever handed to [next]. *)
Lemma calls_of_punctual current (ts : list Timer) o s :
  Forall (timer_current current) ts ->
  In (NextCall o s) (flat_map (calls_of current) ts) ->
  s = current.
Proof.
  intros Hts Hin. apply in_flat_map in Hin. destruct Hin as (t & Ht & Hc).
  rewrite Forall_forall in Hts. specialize (Hts t Ht).
  destruct t as [o' s'|o'|o' e]; simpl in *.
  - destruct (has_next o' && same_object current s') eqn:E; [|contradiction].
    destruct Hc as [Hc|[]]. injection Hc as -> ->.
    apply andb_prop in E. destruct E as [_ E].
    apply Nat.eqb_eq in E. destruct Hts as [Hlt|Heq]; [lia | exact Heq].
  - destruct (has_next o'); [|contradiction].
    destruct Hc as [Hc|[]]. now injection Hc as _ ->.
  - destruct (has_error o'); [|contradiction].
    destruct Hc as [Hc|[]]. discriminate.
Qed.





(** While the variables of the state are those the watcher was started
    with, the observer of the watch does what [emission] says. *)
Lemma watch_observer_emission w s this :
  has_variables (w_variables w) this ->
  watch_observer w s this = emission w s this.
Proof.
  intros Hv. unfold has_variables, getState in Hv.
  destruct s as [result|e|]; [|reflexivity|reflexivity].
  unfold watch_observer, emission, bind, get.
  now rewrite <- Hv, Variables_eqb_refl.
Qed.

Lemma forEach_watch_observer_emission w signals this :
  has_variables (w_variables w) this ->
  forEach signals (watch_observer w) this
  = forEach signals (emission w) this.
Proof.
  revert this. induction signals as [|s signals IH]; intros this Hv;
    [reflexivity|].
  cbn [forEach]. unfold bind.
  pose proof (hoare_watch_observer_keeps (w_variables w) w s this Hv) as Hk.
  rewrite <- (watch_observer_emission w s this Hv).
  destruct (watch_observer w s this) as [[[]|e] this'];
    [now apply IH | reflexivity].
Qed.

(** [_watch] on an unwatched instance with a root ID asks the store for
    a watch of the root with the variables and the data of the state,
    handles what the watch sends at once as [emission] says, and keeps
    the subscription. *)
Lemma _watch_subscribes this rootID :
  _rootID this = Some rootID ->
  _watcher this = None ->
  _watch this
  = (forEach
       (watch (_graph this)
          {| wa_id := rootID;
             wa_selectionSet := selectionSet (_operation this);
             wa_fragments := _fragments this;
             wa_variables := variables (getState this);
             wa_initialData := data (getState this) |})
       (emission {| w_variables := variables (getState this);
                    w_initialData := data (getState this) |}) ;;
     modify
       (set_watcher
          (Some {| w_variables := variables (getState this);
                   w_initialData := data (getState this) |}))) this.
Proof.
  intros Hr Hw.
  set (started := {| w_variables := variables (getState this);
                     w_initialData := data (getState this) |}).
  unfold _watch, bind at 1, get. rewrite Hr, Hw. unfold bind.
  change (value (_state this)) with (getState this).
  fold started.
  change (w_variables started) with (variables (getState this)).
  change (w_initialData started) with (data (getState this)).
  now rewrite (forEach_watch_observer_emission started _ this eq_refl).
Qed.

(** C8: when the graph watch emits, the emission is dropped if its data
    is the very [initialData] the watch was started with and it is not
    stale; any other emission updates the state to canonical false, the
    emission's stale flag and the emission's data, the other fields
    being kept.  This is what the observer of the watch does whenever
    the variables of the state are those it was started with; it is so
    for the active watcher of every reachable instance, and for the
    emissions the watch delivers while [_watch] is subscribing to it,
    before [_watcher] is assigned. *)
Theorem watch_emission_handled this w result :
  let initial_again :=
    match w_initialData w with
    | Some d => read_data result =? d
    | None => false
    end && Bool.eqb (read_stale result) false in
  let handled :=
    if initial_again
    then (Normal tt, this)
    else _updateState
           {| p_loading := None; p_executing := None; p_variables := None;
              p_canonical := Some false;
              p_stale := Some (read_stale result);
              p_errors := None;
              p_data := Some (read_data result) |} this in
  (has_variables (w_variables w) this ->
     watch_observer w (Next result) this = handled)
  /\ emission w (Next result) this = handled
  /\ (initial_again = true -> snd handled = this)
  /\ (initial_again = false ->
        getState (snd handled)
        = {| loading := loading (getState this);
             executing := executing (getState this);
             variables := variables (getState this);
             canonical := false;
             stale := read_stale result;
             errors := errors (getState this);
             data := Some (read_data result) |})
  /\ (reachable this -> _watcher this = Some w ->
        handle (WatchSends (Next result)) this = handled
        /\ (initial_again = true ->
              after (WatchSends (Next result)) this = this)
        /\ (initial_again = false ->
              getState (after (WatchSends (Next result)) this)
              = {| loading := loading (getState this);
                   executing := executing (getState this);
                   variables := variables (getState this);
                   canonical := false;
                   stale := read_stale result;
                   errors := errors (getState this);
                   data := Some (read_data result) |}))
  /\ (forall rootID,
        _rootID this = Some rootID ->
        _watcher this = None ->
        let started :=
          {| w_variables := variables (getState this);
             w_initialData := data (getState this) |} in
        _watch this
        = (forEach
             (watch (_graph this)
                {| wa_id := rootID;
                   wa_selectionSet := selectionSet (_operation this);
                   wa_fragments := _fragments this;
                   wa_variables := variables (getState this);
                   wa_initialData := data (getState this) |})
             (emission started) ;;
           modify (set_watcher (Some started))) this).
Proof.
  intros initial_again handled.
  assert (Ee : emission w (Next result) this = handled).
  { unfold emission, handled. fold initial_again. now destruct initial_again. }
  assert (Et : initial_again = true -> snd handled = this)
    by (intros E; unfold handled; now rewrite E).
  assert (Ef : initial_again = false ->
               getState (snd handled)
               = {| loading := loading (getState this);
                    executing := executing (getState this);
                    variables := variables (getState this);
                    canonical := false;
                    stale := read_stale result;
                    errors := errors (getState this);
                    data := Some (read_data result) |}).
  { intros E. unfold handled. rewrite E. now rewrite _updateState_run. }
  split; [intros Hv; now rewrite watch_observer_emission|].
  split; [exact Ee|]. split; [exact Et|]. split; [exact Ef|]. split.
  - intros Hr Hw. destruct (reachable_Inv this Hr) as [_ Ha].
    specialize (Ha w Hw). simpl in Ha.
    assert (E : handle (WatchSends (Next result)) this = handled).
    { unfold handle, bind at 1, get. rewrite Hw.
      rewrite watch_observer_emission; [exact Ee|].
      unfold has_variables, getState. now rewrite Ha. }
    split; [exact E|]. unfold after. rewrite E. split; assumption.
  - intros rootID Hr Hw started. now apply _watch_subscribes.
Qed.

(** C9: when the executor's observable signals an error, the only effect
    is one pending [error] callback per registered observer.  The state
    object, the execution handle, the observers, the watcher and the
    graph are what they were; every observer with an [error] callback
    receives the error; and an update made afterwards still reaches
    every observer with a [next]. *)
Theorem executor_error_only_notifies this x e :
  let that := snd (execution_observer x (Err e) this) in
  execution_observer x (Err e) this
  = (Normal tt,
     set_timers
       (timers this ++ map (fun o => ErrorTimer o e) (_observers this))
       this)
  /\ _state that = _state this
  /\ _execution that = _execution this
  /\ _observers that = _observers this
  /\ _watcher that = _watcher this
  /\ _graph that = _graph this
  /\ delivered that = delivered this
  /\ (forall o, In o (_observers this) -> has_error o = true ->
        In (ErrorCall o e) (delivered (snd (flush that))))
  /\ (forall p o, In o (_observers this) -> has_next o = true ->
        In (NextCall o (updated p this))
          (delivered
             (snd (flush (snd (_updateState p (snd (flush that)))))))).
Proof.
  intros that.
  assert (E : execution_observer x (Err e) this
              = (Normal tt,
                 set_timers
                   (timers this
                    ++ map (fun o => ErrorTimer o e) (_observers this))
                   this))
    by apply _error_run.
  unfold that. rewrite E.
  do 7 (split; [reflexivity|]). split.
  - intros o Hin He. rewrite flush_run. simpl.
    apply in_or_app. right. rewrite flat_map_app. apply in_or_app. right.
    apply in_flat_map. exists (ErrorTimer o e). split.
    + apply in_map_iff. now exists o.
    + simpl. rewrite He. now left.
  - intros p o Hin Hn. rewrite flush_run, _updateState_run, flush_run. simpl.
    apply in_or_app. right.
    match goal with |- In _ (flat_map (calls_of ?u) _) =>
      change u with (updated p this)
    end.
    rewrite calls_of_update. apply in_map_iff. exists o.
    split; [reflexivity|]. apply filter_In. now split.
Qed.

(** C10: a subscription schedules one priming callback, and what that
    callback hands to the observer is the state current when it runs.
    With no other callback pending: if nothing happens in between, the
    observer receives the state of the time of subscription; if an
    update is made before the priming callback runs, the priming call
    carries the updated state, and the observer receives that same state
    object once more from the update's own callback. *)
Theorem priming_delivers_state_at_delivery this o p :
  has_next o = true ->
  timers this = [] ->
  let subscribed := snd (_onSubscribe o this) in
  let that := snd (_updateState p subscribed) in
  timers subscribed = [PrimeTimer o]
  /\ _observers subscribed = _observers this ++ [o]
  /\ delivered subscribed = delivered this
  /\ delivered (snd (flush subscribed))
     = delivered this ++ [NextCall o (_state this)]
  /\ _state that = updated p this
  /\ delivered (snd (flush that))
     = delivered this
       ++ NextCall o (updated p this)
          :: map (fun o' => NextCall o' (updated p this))
               (filter has_next (_observers this))
          ++ [NextCall o (updated p this)].
Proof.
  intros Hn Ht subscribed that.
  assert (E : subscribed
              = set_observers (_observers this ++ [o])
                  (set_timers (timers this ++ [PrimeTimer o]) this))
    by reflexivity.
  rewrite Ht in E. simpl in E.
  unfold that. rewrite _updateState_run, !flush_run, E. simpl.
  rewrite Hn.
  do 5 (split; [reflexivity|]). f_equal. f_equal.
  change {| ref := S (ref (_state this));
            value := spread (value (_state this)) p |}
    with (updated p this).
  rewrite calls_of_update, filter_app, map_app. simpl. now rewrite Hn.
Qed.

(** ** Invariants by stability *)

Lemma hoare_snd {A} (m : M G A) P Q :
  (forall this, P this -> Q (snd (m this))) -> hoare P m Q Q.
Proof.
  intros H this HP. specialize (H this HP).
  destruct (m this) as [[a|e] this']; exact H.
Qed.

Lemma hoare_get_forget {B} P (f : ObservableOperation G -> M G B) Q R :
  (forall this0, hoare P (f this0) Q R) -> hoare P (bind get f) Q R.
Proof.
  intros Hf. apply hoare_get. intros this0.
  eapply hoare_weaken; [apply Hf | forgetting | kept | kept].
Qed.

(** One step of a proof that a method keeps an assertion: the structure
    of the method is followed, the assertion being the same at every
    point. *)
Ltac stable_step :=
  cbv zeta;
  lazymatch goal with
  | |- hoare _ (bind get _) _ _ => apply hoare_get_forget; intros ?
  | |- hoare ?P (bind _ _) _ _ =>
      eapply hoare_bind with (Q' := P); [ | intros ? ]
  | |- hoare ?P (try_catch _ _) _ _ =>
      eapply hoare_try with (R' := P); [ | intros ? ]
  | |- hoare _ (ret _) _ _ => apply hoare_ret
  | |- hoare _ (throw _) _ _ => apply hoare_throw
  | |- hoare _ (forEach _ _) _ _ => apply hoare_forEach; intros ?
  | |- hoare _ (match ?x with _ => _ end) _ _ => destruct x
  end.

Section Stable.

Variable J : ObservableOperation G -> Prop.

Hypothesis J_update : forall p this,
  ClassPartial p -> J this -> J (snd (_updateState p this)).
Hypothesis J_error : forall e this, J this -> J (snd (_error e this)).
Hypothesis J_prime : forall o this,
  J this -> J (set_timers (timers this ++ [PrimeTimer o]) this).
Hypothesis J_fire : forall this, J this -> J (snd (fire this)).
Hypothesis J_graph : forall g this, J this -> J (set_graph g this).
Hypothesis J_watcher : forall w this, J this -> J (set_watcher w this).
Hypothesis J_execution : forall x this, J this -> J (set_execution x this).
Hypothesis J_observers : forall l this, J this -> J (set_observers l this).
Hypothesis J_new :
  forall graph executor operation_node fragments initialVariables,
    J (initial_instance graph executor operation_node fragments
         initialVariables).

Lemma stable_updateState p :
  ClassPartial p -> hoare J (_updateState p) J J.
Proof. intros Hp. apply hoare_snd. intros this. now apply J_update. Qed.

Lemma stable_error e : hoare J (_error e) J J.
Proof. apply hoare_snd. intros this. apply J_error. Qed.

Lemma stable_stopWatching : hoare J _stopWatching J J.
Proof.
  unfold _stopWatching. repeat stable_step.
  apply hoare_modify. intros this. apply J_watcher.
Qed.

Lemma stable_watch_observer w s : hoare J (watch_observer w s) J J.
Proof.
  destruct s as [result|e|]; simpl; repeat stable_step.
  - apply stable_updateState. constructor.
  - apply stable_error.
Qed.

Lemma stable_watch : hoare J _watch J J.
Proof.
  unfold _watch. repeat stable_step.
  - apply stable_watch_observer.
  - apply hoare_modify. intros this. apply J_watcher.
Qed.

Lemma stable_graph_write input : hoare J (graph_write input) J J.
Proof.
  unfold graph_write. repeat stable_step.
  apply hoare_modify. intros this. apply J_graph.
Qed.

Lemma stable_execution_observer x s :
  hoare J (execution_observer x s) J J.
Proof.
  destruct s as [result|e|]; simpl; repeat stable_step.
  - apply stable_stopWatching.
  - apply stable_graph_write.
  - apply stable_updateState. constructor.
  - apply stable_watch.
  - apply stable_updateState. constructor.
  - apply stable_error.
  - apply stable_updateState. constructor.
Qed.

Lemma stable_execute v : hoare J (execute v) J J.
Proof.
  unfold execute. repeat stable_step.
  - apply stable_updateState. constructor.
  - apply stable_execution_observer.
  - apply hoare_modify. intros this. apply J_execution.
Qed.

Lemma stable_stopExecuting : hoare J stopExecuting J J.
Proof.
  unfold stopExecuting. repeat stable_step.
  - apply hoare_modify. intros this. apply J_execution.
  - apply stable_updateState. constructor.
Qed.

Lemma stable_maybeExecute v : hoare J (maybeExecute v) J J.
Proof.
  unfold maybeExecute. repeat stable_step.
  - apply hoare_graph_read.
  - apply stable_updateState. constructor.
  - apply stable_stopWatching.
  - apply stable_watch.
  - apply stable_execute.
  - apply stable_execute.
Qed.

Lemma stable_handle ev : hoare J (handle ev) J J.
Proof.
  destruct ev as [v|v| |o|o|s|s| |g|x s]; simpl.
  - apply stable_execute.
  - apply stable_maybeExecute.
  - apply stable_stopExecuting.
  - unfold _onSubscribe, setTimeout. stable_step.
    + apply hoare_modify. intros this. apply J_prime.
    + apply hoare_modify. intros this. apply J_observers.
  - apply hoare_modify. intros this. apply J_observers.
  - repeat stable_step. apply stable_execution_observer.
  - repeat stable_step. apply stable_watch_observer.
  - apply hoare_snd. apply J_fire.
  - apply hoare_modify. intros this. apply J_graph.
  - apply stable_execution_observer.
Qed.

(** An assertion that the constructor establishes and that every effect
    of the class keeps holds of every reachable instance. *)
Lemma stable_reachable this : reachable this -> J this.
Proof.
  induction 1 as [graph executor operation_node fragments initialVariables
                 | ev this Hr IH].
  - pose proof (stable_watch _
                  (J_new graph executor operation_node fragments
                     initialVariables)) as H.
    change (constructor graph executor operation_node fragments
              initialVariables)
      with (_watch (initial_instance graph executor operation_node fragments
                      initialVariables)).
    destruct (_watch _) as [[a|e] this']; exact H.
  - pose proof (stable_handle ev this IH) as H. unfold after.
    destruct (handle ev this) as [[a|e] this']; exact H.
Qed.

End Stable.

(** ** Invariants of the states *)

Lemma fire_run this :
  fire this
  = (Normal tt,
     match timers this with
     | [] => this
     | t :: pending =>
         set_delivered (delivered this ++ calls_of (_state this) t)
           (set_timers pending this)
     end).
Proof.
  unfold fire, bind at 1, get. destruct (timers this) as [|t pending].
  - reflexivity.
  - unfold bind, modify. now rewrite run_timer_run.
Qed.

(** A [next] call made by a callback hands out the state the callback
    holds, or the current one. *)
Lemma calls_of_next current t o s :
  In (NextCall o s) (calls_of current t) ->
  (t = UpdateTimer o s /\ ref current = ref s) \/ s = current.
Proof.
  destruct t as [o' s'|o'|o' e]; simpl.
  - destruct (has_next o' && same_object current s') eqn:E; [|contradiction].
    intros [H|[]]. injection H as -> ->. left. split; [reflexivity|].
    apply andb_prop in E. now apply Nat.eqb_eq.
  - destruct (has_next o'); [|contradiction].
    intros [H|[]]. injection H as _ ->. now right.
  - destruct (has_error o'); [|contradiction]. intros [H|[]]. discriminate.
Qed.

Section StateInvariant.

Variable phi : OperationState -> Prop.

Hypothesis phi_spread : forall s p,
  ClassPartial p -> phi s -> phi (spread s p).
Hypothesis phi_initial : forall v, phi (initial_state v).

(** A property of states that the initial state has and that every
    update of the class keeps holds of every state object of a reachable
    instance. *)
Lemma every_state_reachable this :
  reachable this -> every_state phi this.
Proof.
  apply stable_reachable.
  - intros p this' Hp (Hs & Ht & Hd). rewrite _updateState_run.
    assert (Hs' : phi (spread (value (_state this')) p))
      by now apply phi_spread.
    split; [exact Hs' | split; [|exact Hd]].
    intros o s Hin. simpl in Hin. apply in_app_or in Hin.
    destruct Hin as [Hin|Hin]; [exact (Ht o s Hin)|].
    apply in_map_iff in Hin. destruct Hin as (o' & E & _).
    injection E as _ <-. exact Hs'.
  - intros e this' (Hs & Ht & Hd). rewrite _error_run.
    split; [exact Hs | split; [|exact Hd]].
    intros o s Hin. simpl in Hin. apply in_app_or in Hin.
    destruct Hin as [Hin|Hin]; [exact (Ht o s Hin)|].
    apply in_map_iff in Hin. destruct Hin as (o' & E & _). discriminate.
  - intros o this' (Hs & Ht & Hd).
    split; [exact Hs | split; [|exact Hd]].
    intros o' s Hin. simpl in Hin. apply in_app_or in Hin.
    destruct Hin as [Hin|[E|[]]]; [exact (Ht o' s Hin) | discriminate].
  - intros this' (Hs & Ht & Hd). rewrite fire_run. simpl.
    destruct (timers this') as [|t pending] eqn:E.
    + split; [exact Hs | split; [|exact Hd]]. now rewrite E.
    + split; [exact Hs | split].
      * intros o s Hin. apply (Ht o s). now right.
      * intros o s Hin. simpl in Hin. apply in_app_or in Hin.
        destruct Hin as [Hin|Hin]; [exact (Hd o s Hin)|].
        apply calls_of_next in Hin. destruct Hin as [[-> _]| ->].
        -- apply (Ht o s). now left.
        -- exact Hs.
  - intros g this' H. exact H.
  - intros w this' H. exact H.
  - intros x this' H. exact H.
  - intros l this' H. exact H.
  - intros graph executor operation_node fragments initialVariables.
    split; [apply phi_initial | split; intros o s []].
Qed.

End StateInvariant.

(** X9: Stale data is never shown as canonical: in every state of a
    reachable operation, current or handed to an observer,
    [stale = true] implies [canonical = false]. *)
Theorem stale_state_is_not_canonical this :
  reachable this ->
  (stale (getState this) = true -> canonical (getState this) = false)
  /\ (forall o s, In (NextCall o s) (delivered this) ->
        stale (value s) = true -> canonical (value s) = false).
Proof.
  intros Hr.
  destruct (every_state_reachable stale_not_canonical) with (this := this)
    as (Hs & _ & Hd); [| |exact Hr|].
  - intros s p Hp Hs. unfold stale_not_canonical in *.
    destruct Hp; simpl; auto; discriminate.
  - intros v. unfold stale_not_canonical. simpl. discriminate.
  - split; [exact Hs | exact Hd].
Qed.

(** X10: As long as an operation has no data, its state is neither canonical
    nor stale and carries no errors; so a canonical state, a stale
    state and a state with errors all have data. *)
Theorem state_without_data_is_pristine this :
  reachable this ->
  (data (getState this) = None ->
     canonical (getState this) = false
     /\ stale (getState this) = false
     /\ errors (getState this) = [])
  /\ (forall o s, In (NextCall o s) (delivered this) ->
        data (value s) = None ->
        canonical (value s) = false
        /\ stale (value s) = false
        /\ errors (value s) = []).
Proof.
  intros Hr.
  destruct (every_state_reachable pristine_without_data) with (this := this)
    as (Hs & _ & Hd); [| |exact Hr|].
  - intros s p Hp Hs. unfold pristine_without_data in *.
    destruct Hp; simpl; auto; discriminate.
  - intros v. unfold pristine_without_data. simpl. auto.
  - split; [exact Hs | exact Hd].
Qed.

(** ** The order of the calls *)

Lemma next_refs_app ds ds' :
  next_refs (ds ++ ds') = next_refs ds ++ next_refs ds'.
Proof. unfold next_refs. apply flat_map_app. Qed.

(** What a callback hands out has the position of the current state. *)
Lemma next_refs_calls_of current t :
  next_refs (calls_of current t) = []
  \/ next_refs (calls_of current t) = [ref current].
Proof.
  destruct t as [o s|o|o e]; simpl.
  - destruct (has_next o && same_object current s) eqn:E; [|now left].
    right. simpl. apply andb_prop in E. destruct E as [_ E].
    apply Nat.eqb_eq in E. now rewrite E.
  - destruct (has_next o); [now right | now left].
  - destruct (has_error o); now left.
Qed.

Lemma StronglySorted_snoc (l : list nat) n :
  StronglySorted le l -> Forall (fun m => m <= n) l ->
  StronglySorted le (l ++ [n]).
Proof.
  induction 1 as [|a l Hl IH Ha]; intros Hn; simpl.
  - repeat constructor.
  - inversion Hn as [|? ? Han Hln]; subst. constructor.
    + now apply IH.
    + apply Forall_app. split; [exact Ha | now constructor].
Qed.

Lemma in_order_reachable this : reachable this -> in_order this.
Proof.
  apply stable_reachable.
  - intros p this' _ [Hb Hs]. rewrite _updateState_run.
    split; [|exact Hs]. simpl.
    eapply Forall_impl; [|exact Hb]. simpl. intros n Hn. lia.
  - intros e this' H. rewrite _error_run. exact H.
  - intros o this' H. exact H.
  - intros this' [Hb Hs]. rewrite fire_run. simpl.
    destruct (timers this') as [|t pending]; [now split|].
    unfold in_order. simpl. rewrite next_refs_app.
    destruct (next_refs_calls_of (_state this') t) as [-> | ->].
    + rewrite app_nil_r. now split.
    + split.
      * apply Forall_app. split; [exact Hb | now repeat constructor].
      * now apply StronglySorted_snoc.
  - intros g this' H. exact H.
  - intros w this' H. exact H.
  - intros x this' H. exact H.
  - intros l this' H. exact H.
  - intros graph executor operation_node fragments initialVariables.
    split; constructor.
Qed.

(** X11: The states reach the observers in the order the operation went
    through them: along the calls of [next] made so far, the position of
    the state in the chain of state objects never goes down, and never
    exceeds that of the current state. *)
Theorem states_are_delivered_in_order this :
  reachable this ->
  StronglySorted le (next_refs (delivered this))
  /\ (forall o s, In (NextCall o s) (delivered this) ->
        ref s <= ref (_state this)).
Proof.
  intros Hr. destruct (in_order_reachable this Hr) as [Hb Hs].
  split; [exact Hs|]. intros o s Hin.
  rewrite Forall_forall in Hb. apply Hb.
  unfold next_refs. apply in_flat_map. exists (NextCall o s).
  split; [exact Hin | now left].
Qed.

(** X12: Whatever has happened before, a pending callback that fires hands to
    [next] the state object that is current at that moment, and no
    other. *)
Theorem fired_callback_delivers_current_state this :
  reachable this ->
  exists calls,
    delivered (after TimerFires this) = delivered this ++ calls
    /\ _state (after TimerFires this) = _state this
    /\ forall o s, In (NextCall o s) calls -> s = _state this.
Proof.
  intros Hr. destruct (reachable_Inv this Hr) as [(_ & _ & _ & Hp) _].
  unfold after, handle. rewrite fire_run. simpl. unfold punctual in Hp.
  destruct (timers this) as [|t pending].
  - exists []. rewrite app_nil_r. repeat split. intros o s [].
  - exists (calls_of (_state this) t). repeat split.
    intros o s Hin. apply (calls_of_punctual (_state this) [t] o s).
    + inversion Hp; subst. now repeat constructor.
    + simpl. now rewrite app_nil_r.
Qed.

(** ** The errors the methods throw *)

Lemma throws_weaken {A} P P' (m : M G A) (E E' : Error -> Prop) :
  throws P m E ->
  (forall this, P' this -> P this) ->
  (forall e, E e -> E' e) ->
  throws P' m E'.
Proof. intros Hm HP HE this H e this' Hr. eauto. Qed.

(** A computation that returns throws nothing. *)
Lemma throws_nothing {A} P (m : M G A) E :
  (forall this, exists a this', m this = (Normal a, this')) ->
  throws P m E.
Proof.
  intros Hm this _ e this' Hr. destruct (Hm this) as (a & this'' & Hn).
  congruence.
Qed.

Lemma throws_bind {A B} P (m : M G A) (f : A -> M G B) Q' R E :
  hoare P m Q' R ->
  throws P m E ->
  (forall a, throws Q' (f a) E) ->
  throws P (bind m f) E.
Proof.
  intros Hh Hm Hf this H e this' Hr. unfold bind in Hr.
  specialize (Hh this H). specialize (Hm this H).
  destruct (m this) as [[a|e0] this0].
  - exact (Hf a this0 Hh e this' Hr).
  - injection Hr as <- <-. now apply (Hm e0 this0).
Qed.

Lemma throws_get {B} P (f : ObservableOperation G -> M G B) E :
  (forall this0, throws (fun this => this = this0 /\ P this) (f this0) E) ->
  throws P (bind get f) E.
Proof.
  intros Hf this H e this' Hr. exact (Hf this this (conj eq_refl H) e this' Hr).
Qed.

Lemma throws_forEach {A} (l : list A) (f : A -> M G unit) P R E :
  (forall a, hoare P (f a) P R) ->
  (forall a, throws P (f a) E) ->
  throws P (forEach l f) E.
Proof.
  intros Hh Hf. induction l as [|a l IH]; simpl.
  - apply throws_nothing. intros this. now exists tt, this.
  - eapply throws_bind; [apply Hh | apply Hf | intros _; exact IH].
Qed.

(** [try { m } catch (error) { handler error }] throws what the handler
    throws for the errors of [m]. *)
Lemma throws_try {A} P (m : M G A) (handler : Error -> M G A) Q R' E' E :
  hoare P m Q R' ->
  throws P m E' ->
  (forall e, E' e -> throws R' (handler e) E) ->
  throws P (try_catch m handler) E.
Proof.
  intros Hh Hm Hc this H e this' Hr. unfold try_catch in Hr.
  specialize (Hh this H). specialize (Hm this H).
  destruct (m this) as [[a|e0] this0]; [discriminate|].
  exact (Hc e0 (Hm e0 this0 eq_refl) this0 Hh e this' Hr).
Qed.

Lemma throws_updateState P p E : throws P (_updateState p) E.
Proof.
  apply throws_nothing. intros this. rewrite _updateState_run. eauto.
Qed.

Lemma throws_error P e E : throws P (_error e) E.
Proof. apply throws_nothing. intros this. rewrite _error_run. eauto. Qed.

Lemma throws_stopWatching P E : throws P _stopWatching E.
Proof.
  apply throws_nothing. intros this. rewrite _stopWatching_run. eauto.
Qed.

Lemma throws_modify P f E : throws P (modify f) E.
Proof. apply throws_nothing. intros this. unfold modify. eauto. Qed.

Lemma throws_graph_write P input :
  throws P (graph_write input) store_error.
Proof.
  intros this _ e this' Hr. unfold graph_write, bind, get in Hr.
  destruct (write (_graph this) input) as [e0|[g d]] eqn:Ew.
  - injection Hr as <- _. left. eauto.
  - discriminate.
Qed.

Lemma throws_graph_read P input :
  throws P (graph_read input) store_error.
Proof.
  intros this _ e this' Hr. unfold graph_read, bind, get in Hr.
  destruct (read (_graph this) input) as [e0|r] eqn:Er.
  - injection Hr as <- _. right. eauto.
  - discriminate.
Qed.

Lemma throws_watch E :
  throws (fun this => _watcher this = None) _watch E.
Proof.
  intros this Hw e this' Hr. pose proof (_watch_returns this Hw) as Hn.
  rewrite Hr in Hn. discriminate.
Qed.

Lemma Stopped_unwatched this : Stopped this -> _watcher this = None.
Proof. intros [_ H]. exact H. Qed.

Lemma throws_execution_observer x s :
  throws Inv (execution_observer x s) expected.
Proof.
  destruct s as [result|e|]; simpl.
  - eapply throws_bind;
      [ apply (hoare_stopWatching agrees Stopped) | apply throws_stopWatching |].
    intros _. destruct (_ =? 0); [|apply throws_updateState].
    apply throws_get. intros this0.
    eapply throws_bind with (Q' := Stopped) (R := Stopped).
    + eapply hoare_weaken;
        [apply (hoare_graph_write stopped) | forgetting | kept | kept].
    + eapply throws_weaken; [apply throws_graph_write | kept |].
      intros e He. now right.
    + intros d. eapply throws_bind;
        [ apply (hoare_updateState_Stopped _ Stopped), lawful_loaded
        | apply throws_updateState |].
      intros _. eapply throws_weaken;
        [apply throws_watch | apply Stopped_unwatched | kept].
  - apply throws_error.
  - apply throws_updateState.
Qed.

Lemma throws_execute v : throws Inv (execute v) expected.
Proof.
  apply throws_get. intros this0. cbv zeta.
  destruct (_execution this0) as [x|].
  - intros this _ e this' Hr. injection Hr as <- _. now left.
  - eapply throws_bind with (Q' := Inv) (R := Inv).
    + eapply hoare_weaken;
        [ apply (hoare_updateState agrees); [apply lawful_flags | reflexivity]
        | forgetting | kept | kept ].
    + apply throws_updateState.
    + intros _. eapply throws_bind with (Q' := Inv) (R := Inv).
      * apply hoare_forEach. intros s. apply hoare_execution_observer.
      * eapply throws_forEach; intros s;
          [apply hoare_execution_observer | apply throws_execution_observer].
      * intros _. apply throws_modify.
Qed.

Lemma throws_maybeExecute v : throws Inv (maybeExecute v) expected.
Proof.
  apply throws_get. intros this0. cbv zeta.
  destruct (_execution this0) as [x|].
  { intros this _ e this' Hr. injection Hr as <- _. now left. }
  destruct (_rootID this0) as [rootID|].
  - eapply throws_try with (Q := Inv) (R' := Inv) (E' := store_error).
    + eapply hoare_bind with (Q' := Inv).
      * eapply hoare_weaken; [apply hoare_graph_read | forgetting | kept | kept].
      * intros result. eapply hoare_bind with (Q' := Base).
        -- eapply hoare_weaken;
             [ apply hoare_updateState_Base, lawful_data
             | intros this [H _]; exact H | kept | kept ].
        -- intros _. eapply hoare_bind with (Q' := Stopped).
           ++ intros this H.
              exact (hoare_stopWatching (fun _ _ => True) Inv this
                       (conj H I)).
           ++ intros _. apply hoare_watch.
    + eapply throws_bind with (Q' := Inv) (R := Inv).
      * eapply hoare_weaken; [apply hoare_graph_read | forgetting | kept | kept].
      * apply throws_graph_read.
      * intros result. eapply throws_bind with (Q' := Base) (R := Base).
        -- eapply hoare_weaken;
             [ apply hoare_updateState_Base, lawful_data
             | intros this [H _]; exact H | kept | kept ].
        -- apply throws_updateState.
        -- intros _. eapply throws_bind with (Q' := Stopped) (R := Stopped).
           ++ intros this H.
              exact (hoare_stopWatching (fun _ _ => True) Stopped this
                       (conj H I)).
           ++ apply throws_stopWatching.
           ++ intros _. eapply throws_weaken;
                [apply throws_watch | apply Stopped_unwatched | kept].
    + intros e He. destruct (_partialRead e).
      * intros this _ e' this' Hr. injection Hr as <- _. now right.
      * apply throws_execute.
  - eapply throws_weaken; [apply throws_execute | forgetting | kept].
Qed.

Lemma throws_handle ev : throws Inv (handle ev) expected.
Proof.
  destruct ev as [v|v| |o|o|s|s| |g|x s]; simpl.
  - apply throws_execute.
  - apply throws_maybeExecute.
  - apply throws_nothing. intros this. unfold stopExecuting, bind, get.
    destruct (_execution this); [|unfold ret; eauto].
    unfold modify. rewrite _updateState_run. eauto.
  - apply throws_nothing. intros this.
    unfold _onSubscribe, bind, setTimeout, modify. eauto.
  - apply throws_modify.
  - apply throws_get. intros this0. destruct (_execution this0) as [x|].
    + eapply throws_weaken;
        [apply throws_execution_observer | forgetting | kept].
    + apply throws_nothing. intros this. unfold ret. eauto.
  - apply throws_get. intros this0.
    destruct (_watcher this0) as [w|] eqn:Ew.
    + intros this [-> [_ Ha]] e this' Hr.
      pose proof (hoare_watch_observer_returns w s this0
                    (eq_sym (Ha w Ew))) as H.
      rewrite Hr in H. contradiction.
    + apply throws_nothing. intros this. unfold ret. eauto.
  - apply throws_nothing. intros this. rewrite fire_run. eauto.
  - apply throws_modify.
  - apply throws_execution_observer.
Qed.

(** X5: Whatever a reachable operation is asked to do, and whichever
    observer of an [execute] call the executor signals (the execution
    whose handle is held or any other, such as one whose [execute] threw
    while subscribing), the only errors that come out are the refusal
    to start a second execution and the errors thrown by the store's
    [write] and [read]: the two errors the class raises for a broken
    watch (a watcher started twice, variables changed under a watcher)
    never occur.  The executor function and the store's [watch] are
    taken not to throw, and neither the store nor the observers to call
    back into the operation. *)
Theorem only_expected_errors this ev e this' :
  reachable this ->
  handle ev this = (Throw e, this') ->
  e = already_executing \/ store_error e.
Proof.
  intros Hr Hh.
  exact (throws_handle ev this (reachable_Inv this Hr) e this' Hh).
Qed.

(** ** Starting the watch *)

(** The watch observer, called with the variables it was created with,
    returns; it keeps whatever does not depend on the state object and
    the timers, and every property of the state that an emission of the
    watch keeps. *)
Lemma hoare_watch_observer_frame {T} (proj : ObservableOperation G -> T)
  (c : T) (psi : OperationState -> Prop) w s :
  (forall st this, proj (set_state st this) = proj this) ->
  (forall ts this, proj (set_timers ts this) = proj this) ->
  (forall st stl d, psi st ->
     psi (spread st
            {| p_loading := None; p_executing := None; p_variables := None;
               p_canonical := Some false; p_stale := Some stl;
               p_errors := None; p_data := Some d |})) ->
  hoare
    (fun this => has_variables (w_variables w) this
                 /\ proj this = c /\ psi (getState this))
    (watch_observer w s)
    (fun this => has_variables (w_variables w) this
                 /\ proj this = c /\ psi (getState this))
    (fun _ => False).
Proof.
  intros Hst Hts Hpsi this (Hv & Hp & Hs).
  pose proof (hoare_watch_observer_returns w s this Hv) as Hr.
  destruct s as [result|e|]; simpl in *.
  - unfold bind, get in *.
    destruct (negb _); [exact Hr|].
    destruct (_ && _); [now repeat split|].
    rewrite _updateState_run in *. split; [exact Hr|]. split.
    + now rewrite Hts, Hst.
    + apply Hpsi. exact Hs.
  - rewrite _error_run in *. split; [exact Hr|]. split; [|exact Hs].
    now rewrite Hts.
  - now repeat split.
Qed.

(** [_watch] on an unwatched instance with a root ID: it returns, the
    watcher closes over the variables and the data of the state at that
    moment, and the synchronous emissions of the watch touch neither
    what is outside the state, nor what a watch emission keeps. *)
Lemma _watch_starts {T} (proj : ObservableOperation G -> T)
  (psi : OperationState -> Prop) this rootID :
  (forall st this, proj (set_state st this) = proj this) ->
  (forall ts this, proj (set_timers ts this) = proj this) ->
  (forall w this, proj (set_watcher w this) = proj this) ->
  (forall st stl d, psi st ->
     psi (spread st
            {| p_loading := None; p_executing := None; p_variables := None;
               p_canonical := Some false; p_stale := Some stl;
               p_errors := None; p_data := Some d |})) ->
  _rootID this = Some rootID ->
  _watcher this = None ->
  psi (getState this) ->
  fst (_watch this) = Normal tt
  /\ _watcher (snd (_watch this))
     = Some {| w_variables := variables (getState this);
               w_initialData := data (getState this) |}
  /\ proj (snd (_watch this)) = proj this
  /\ variables (getState (snd (_watch this))) = variables (getState this)
  /\ psi (getState (snd (_watch this))).
Proof.
  intros Hst Hts Hw Hpsi Hr Hn Hs.
  set (w := {| w_variables := variables (getState this);
               w_initialData := data (getState this) |}).
  assert (E : exists this',
             _watch this = (Normal tt, set_watcher (Some w) this')
             /\ has_variables (w_variables w) this'
             /\ proj this' = proj this
             /\ psi (getState this')).
  { unfold _watch, bind at 1, get. rewrite Hr, Hn. unfold bind.
    match goal with
    | |- context [forEach _ (watch_observer ?w0) this] => change w0 with w
    end.
    match goal with
    | |- context [forEach ?l (watch_observer w) this] => set (signals := l)
    end.
    pose proof (hoare_forEach signals (watch_observer w) _ (fun _ => False)
                  (fun s => hoare_watch_observer_frame proj (proj this) psi
                              w s Hst Hts Hpsi)
                  this (conj eq_refl (conj eq_refl Hs))) as H.
    destruct (forEach signals (watch_observer w) this) as [[[]|e] this'];
      [|contradiction].
    exists this'. split; [reflexivity | exact H]. }
  destruct E as (this' & -> & Hv & Hp & Hs'). simpl.
  split; [reflexivity | split; [reflexivity|]].
  split; [now rewrite Hw | split; [exact Hv | exact Hs']].
Qed.

(** An emission of the very data the watcher was started with, not
    stale, changes nothing. *)
Lemma watch_observer_initial_again w d this :
  w_initialData w = Some d ->
  has_variables (w_variables w) this ->
  watch_observer w (Next {| read_data := d; read_stale := false |}) this
  = (Normal tt, this).
Proof.
  intros Hd Hv. unfold has_variables, getState in Hv.
  unfold watch_observer, bind, get.
  rewrite <- Hv, Variables_eqb_refl, Hd. simpl. now rewrite Nat.eqb_refl.
Qed.

Lemma forEach_initial_again w d signals this :
  w_initialData w = Some d ->
  has_variables (w_variables w) this ->
  Forall (fun s => s = Next {| read_data := d; read_stale := false |})
    signals ->
  forEach signals (watch_observer w) this = (Normal tt, this).
Proof.
  intros Hd Hv Hs. induction Hs as [|s signals -> _ IH]; [reflexivity|].
  cbn [forEach]. unfold bind. now rewrite watch_observer_initial_again.
Qed.

(** ** Stopping, reading from the graph, writing a result *)

(** X1: [stopExecuting]: it returns; the execution handle is cleared; when
    an execution was running, [loading] and [executing] become false
    and the new state is scheduled for every observer; when none was,
    nothing is scheduled and the state object is kept.  Either way the
    graph, the watcher, the observers and the other fields of the state
    are left alone, a second call changes nothing, and [execute] can
    start again. *)
Theorem stopExecuting_stops this :
  let stopped := snd (stopExecuting this) in
  fst (stopExecuting this) = Normal tt
  /\ _execution stopped = None
  /\ _graph stopped = _graph this
  /\ _watcher stopped = _watcher this
  /\ _observers stopped = _observers this
  /\ delivered stopped = delivered this
  /\ variables (getState stopped) = variables (getState this)
  /\ canonical (getState stopped) = canonical (getState this)
  /\ stale (getState stopped) = stale (getState this)
  /\ errors (getState stopped) = errors (getState this)
  /\ data (getState stopped) = data (getState this)
  /\ match _execution this with
     | Some _ =>
         loading (getState stopped) = false
         /\ executing (getState stopped) = false
         /\ timers stopped
            = timers this
              ++ map (fun o => UpdateTimer o (_state stopped))
                   (_observers this)
     | None => _state stopped = _state this /\ timers stopped = timers this
     end
  /\ stopExecuting stopped = (Normal tt, stopped)
  /\ (forall v,
        _executor stopped
          {| eo_operation := _operation stopped;
             eo_fragments := _fragments stopped;
             eo_variables := or_else v (variables (getState stopped)) |}
        = [] ->
        fst (execute v stopped) = Normal tt).
Proof.
  intros stopped.
  assert (Hx : _execution stopped = None).
  { unfold stopped, stopExecuting, bind, get.
    destruct (_execution this) eqn:E; [|exact E].
    unfold modify. now rewrite _updateState_run. }
  assert (Hs : stopExecuting stopped = (Normal tt, stopped))
    by (unfold stopExecuting at 1, bind, get; now rewrite Hx).
  assert (He : forall v,
             _executor stopped
               {| eo_operation := _operation stopped;
                  eo_fragments := _fragments stopped;
                  eo_variables := or_else v (variables (getState stopped)) |}
             = [] ->
             fst (execute v stopped) = Normal tt)
    by (intros v H; now rewrite (execute_asynchronous_run stopped v Hx H)).
  split; [unfold stopExecuting, bind, get; destruct (_execution this);
          [unfold modify; now rewrite _updateState_run | reflexivity]|].
  split; [exact Hx|].
  do 10 (split;
         [ subst stopped; unfold stopExecuting, bind, get;
           destruct (_execution this);
           [unfold modify; rewrite _updateState_run|];
           repeat split |]).
  split; [exact Hs | exact He].
Qed.

(** [maybeExecute] when the read succeeds runs, after the update and the
    stop of the watch, to the end of [_watch]. *)
Lemma maybeExecute_hit_run this v rootID result :
  _execution this = None ->
  _rootID this = Some rootID ->
  read (_graph this)
    {| ri_id := rootID;
       ri_selectionSet := selectionSet (_operation this);
       ri_fragments := _fragments this;
       ri_variables := or_else v (variables (getState this));
       ri_previousData := data (getState this) |} = inr result ->
  let p := {| p_loading := None; p_executing := None;
              p_variables := Some (or_else v (variables (getState this)));
              p_canonical := Some false;
              p_stale := Some (read_stale result);
              p_errors := None;
              p_data := Some (read_data result) |} in
  let unwatched := snd (_stopWatching (snd (_updateState p this))) in
  maybeExecute v this = _watch unwatched
  /\ _rootID unwatched = Some rootID
  /\ _watcher unwatched = None
  /\ _graph unwatched = _graph this
  /\ _execution unwatched = None
  /\ _observers unwatched = _observers this
  /\ _operation unwatched = _operation this
  /\ _fragments unwatched = _fragments this
  /\ getState unwatched = spread (getState this) p.
Proof.
  intros Hx Hr He p unwatched. unfold getState in *.
  set (updated_this := snd (_updateState p this)) in *.
  assert (Eu : unwatched
               = match _watcher updated_this with
                 | Some _ => set_watcher None updated_this
                 | None => updated_this
                 end)
    by (unfold unwatched; now rewrite _stopWatching_run).
  assert (Hw : _watcher unwatched = None)
    by (rewrite Eu; now destruct (_watcher updated_this) eqn:Ew).
  split.
  - unfold maybeExecute, bind at 1, get. rewrite Hx, Hr.
    unfold try_catch, bind at 1. unfold graph_read, bind at 1, get.
    rewrite He. unfold ret, bind at 1. fold p.
    replace (_updateState p this) with (Normal tt, updated_this)
      by (unfold updated_this; now rewrite _updateState_run).
    unfold bind at 1. rewrite _stopWatching_run, <- Eu.
    pose proof (_watch_returns _ Hw) as Hn.
    destruct (_watch unwatched) as [[[]|e] this'];
      [reflexivity | discriminate].
  - split; [|split; [exact Hw|]]; rewrite Eu; unfold updated_this;
      rewrite _updateState_run; simpl;
      destruct (_watcher this) eqn:Ew; simpl; repeat split; assumption.
Qed.

(** X2: [maybeExecute] answered from the graph: when nothing is executing
    and the read succeeds, the method returns without starting an
    execution and without touching the graph; the state takes the
    variables of the call and is not canonical; [loading], [executing]
    and [errors] are kept; there is data; and the graph is watched
    again: after the update and the stop of the old watch, the store is
    asked for a watch of the root with the variables of the call and the
    data that was read as initial data, what that watch sends at once is
    handled as every emission of the watch is, and the subscription,
    closing over those variables and that data, is kept as the
    watcher. *)
Theorem maybeExecute_reads_from_graph this v rootID result :
  _execution this = None ->
  _rootID this = Some rootID ->
  read (_graph this)
    {| ri_id := rootID;
       ri_selectionSet := selectionSet (_operation this);
       ri_fragments := _fragments this;
       ri_variables := or_else v (variables (getState this));
       ri_previousData := data (getState this) |} = inr result ->
  let that := snd (maybeExecute v this) in
  let started :=
    {| w_variables := or_else v (variables (getState this));
       w_initialData := Some (read_data result) |} in
  fst (maybeExecute v this) = Normal tt
  /\ _execution that = None
  /\ _graph that = _graph this
  /\ _observers that = _observers this
  /\ _watcher that = Some started
  /\ variables (getState that) = or_else v (variables (getState this))
  /\ canonical (getState that) = false
  /\ loading (getState that) = loading (getState this)
  /\ executing (getState that) = executing (getState this)
  /\ errors (getState that) = errors (getState this)
  /\ data (getState that) <> None
  /\ maybeExecute v this
     = (forEach
          (watch (_graph this)
             {| wa_id := rootID;
                wa_selectionSet := selectionSet (_operation this);
                wa_fragments := _fragments this;
                wa_variables := or_else v (variables (getState this));
                wa_initialData := Some (read_data result) |})
          (emission started) ;;
        modify (set_watcher (Some started)))
         (snd (_stopWatching
                 (snd (_updateState
                         {| p_loading := None; p_executing := None;
                            p_variables :=
                              Some (or_else v (variables (getState this)));
                            p_canonical := Some false;
                            p_stale := Some (read_stale result);
                            p_errors := None;
                            p_data := Some (read_data result) |} this)))).
Proof.
  intros Hx Hr He that started.
  pose proof (maybeExecute_hit_run this v rootID result Hx Hr He) as H.
  cbv zeta in H.
  set (u := snd (_stopWatching (snd (_updateState _ this)))) in *.
  destruct H as (Em & Hur & Huw & Hug & Hux & Huo & Huop & Hufr & Hus).
  unfold that. rewrite Em.
  destruct (_watch_starts
              (fun t => (_graph t, _execution t, _observers t))
              (fun s => canonical s = false
                        /\ loading s = loading (getState this)
                        /\ executing s = executing (getState this)
                        /\ errors s = errors (getState this)
                        /\ data s <> None)
              u rootID)
    as (Hn & Hw & Hp & Hv & Hc & Hl & Hex & Her & Hd);
    try reflexivity; try assumption.
  - intros st stl d (_ & Hl & Hex & Her & _). simpl.
    repeat split; try assumption. discriminate.
  - rewrite Hus. simpl. repeat split. discriminate.
  - rewrite Hus in Hw, Hv. simpl in Hw, Hv.
    injection Hp as Hg Hxx Ho.
    split; [exact Hn|]. split; [congruence|]. split; [congruence|].
    split; [congruence|]. split; [exact Hw|]. split; [exact Hv|].
    do 5 (split; [assumption|]).
    rewrite (_watch_subscribes u rootID Hur Huw).
    rewrite Hug, Huop, Hufr, Hus. reflexivity.
Qed.

(** The [next] handler of [execute] on a result without errors whose
    write succeeds runs, after the stop of the watch, the write and the
    update, to the end of [_watch]. *)
Lemma clean_result_run this x result g d :
  result_errors result = [] ->
  write (_graph this)
    {| wi_id := _rootID this;
       wi_selectionSet := selectionSet (_operation this);
       wi_data := result_data result |} = inr (g, d) ->
  let p := {| p_loading := Some false; p_executing := None;
              p_variables := Some (x_variables x);
              p_canonical := Some true;
              p_stale := Some false;
              p_errors := Some (result_errors result);
              p_data := Some d |} in
  let unwatched :=
    snd (_updateState p (set_graph g (snd (_stopWatching this)))) in
  execution_observer x (Next result) this = _watch unwatched
  /\ _rootID unwatched = _rootID this
  /\ _watcher unwatched = None
  /\ _graph unwatched = g
  /\ _execution unwatched = _execution this
  /\ _observers unwatched = _observers this
  /\ _operation unwatched = _operation this
  /\ _fragments unwatched = _fragments this
  /\ getState unwatched = spread (getState this) p.
Proof.
  intros He Hw p unwatched. unfold getState.
  set (stopped_this := match _watcher this with
                       | Some _ => set_watcher None this
                       | None => this
                       end).
  assert (Es : snd (_stopWatching this) = stopped_this)
    by now rewrite _stopWatching_run.
  assert (Hg : _graph stopped_this = _graph this
               /\ _rootID stopped_this = _rootID this
               /\ _operation stopped_this = _operation this)
    by (unfold stopped_this; now destruct (_watcher this)).
  destruct Hg as (Hg & Hr & Ho).
  unfold unwatched. rewrite Es.
  split.
  - unfold execution_observer, bind at 1. rewrite _stopWatching_run.
    fold stopped_this.
    replace (List.length (result_errors result) =? 0) with true
      by now rewrite He.
    unfold bind at 1, get. unfold bind at 1, graph_write, bind at 1, get.
    rewrite Hr, Ho, Hg, Hw. unfold bind at 1, modify, ret.
    unfold bind at 1. fold p. now rewrite _updateState_run.
  - rewrite _updateState_run. simpl. unfold stopped_this.
    destruct (_watcher this) eqn:Ew; simpl; repeat split; assumption.
Qed.

(** X3: A result without errors is written to the graph: when the write
    succeeds, the handler returns, the graph is the one the write
    produced, the state is not loading and has the variables of the
    [execute] call, the errors of the result (none) and data, and the
    execution is left as it was.  When the operation has a root ID (a
    query or a subscription), the graph is watched again: on the state
    updated with the written data, the store is asked for a watch of the
    root with those variables and the written data as initial data,
    what the watch sends at once is handled as every emission of the
    watch is, and the subscription is kept as the watcher; when the
    watch sends nothing else at once than that very data, not stale, the
    state is exactly the canonical one.  When the operation has no root
    ID (a mutation), the write is made all the same, the state is
    exactly the canonical one and nothing is watched. *)
Theorem clean_result_is_written this x result g d :
  result_errors result = [] ->
  write (_graph this)
    {| wi_id := _rootID this;
       wi_selectionSet := selectionSet (_operation this);
       wi_data := result_data result |} = inr (g, d) ->
  let that := snd (execution_observer x (Next result) this) in
  let written :=
    snd (_updateState
           {| p_loading := Some false; p_executing := None;
              p_variables := Some (x_variables x);
              p_canonical := Some true;
              p_stale := Some false;
              p_errors := Some (result_errors result);
              p_data := Some d |}
           (set_graph g (snd (_stopWatching this)))) in
  let started :=
    {| w_variables := x_variables x; w_initialData := Some d |} in
  let canonical_state :=
    {| loading := false;
       executing := executing (getState this);
       variables := x_variables x;
       canonical := true;
       stale := false;
       errors := [];
       data := Some d |} in
  fst (execution_observer x (Next result) this) = Normal tt
  /\ _graph that = g
  /\ _execution that = _execution this
  /\ _observers that = _observers this
  /\ loading (getState that) = false
  /\ executing (getState that) = executing (getState this)
  /\ variables (getState that) = x_variables x
  /\ errors (getState that) = []
  /\ data (getState that) <> None
  /\ getState written = canonical_state
  /\ (forall rootID,
        _rootID this = Some rootID ->
        _watcher that = Some started
        /\ execution_observer x (Next result) this
           = (forEach
                (watch g
                   {| wa_id := rootID;
                      wa_selectionSet := selectionSet (_operation this);
                      wa_fragments := _fragments this;
                      wa_variables := x_variables x;
                      wa_initialData := Some d |})
                (emission started) ;;
              modify (set_watcher (Some started))) written
        /\ (Forall
              (fun s => s = Next {| read_data := d; read_stale := false |})
              (watch g
                 {| wa_id := rootID;
                    wa_selectionSet := selectionSet (_operation this);
                    wa_fragments := _fragments this;
                    wa_variables := x_variables x;
                    wa_initialData := Some d |}) ->
            getState that = canonical_state))
  /\ (_rootID this = None ->
        execution_observer x (Next result) this = (Normal tt, written)
        /\ _watcher that = None
        /\ getState that = canonical_state).
Proof.
  intros He Hw that written started canonical_state.
  pose proof (clean_result_run this x result g d He Hw) as H.
  cbv zeta in H. fold written in H.
  destruct H as (Em & Hur & Huw & Hug & Hux & Huo & Huop & Hufr & Hus).
  rewrite He in Hus.
  assert (Hc : getState written = canonical_state)
    by (rewrite Hus; reflexivity).
  unfold that. rewrite Em.
  destruct (_rootID this) as [rootID|] eqn:Hr.
  - destruct (_watch_starts
                (fun t => (_graph t, _execution t, _observers t))
                (fun s => loading s = false
                          /\ executing s = executing (getState this)
                          /\ errors s = []
                          /\ data s <> None)
                written rootID)
      as (Hn & Hwa & Hp & Hv & Hl & Hex & Her & Hd);
      try reflexivity; try assumption.
    + intros st stl d' (Hl & Hex & Her & _). simpl.
      repeat split; try assumption. discriminate.
    + rewrite Hus. simpl. repeat split. discriminate.
    + rewrite Hus in Hwa, Hv. simpl in Hwa, Hv.
      injection Hp as Hg Hxx Ho.
      split; [exact Hn|]. split; [congruence|]. split; [congruence|].
      split; [congruence|]. do 2 (split; [assumption|]).
      split; [exact Hv|]. do 2 (split; [assumption|]).
      split; [exact Hc|]. split; [|intros E; discriminate].
      intros rootID' E. injection E as <-.
      assert (Ew : _watch written
                   = (forEach
                        (watch g
                           {| wa_id := rootID;
                              wa_selectionSet := selectionSet (_operation this);
                              wa_fragments := _fragments this;
                              wa_variables := x_variables x;
                              wa_initialData := Some d |})
                        (emission started) ;;
                      modify (set_watcher (Some started))) written).
      { rewrite (_watch_subscribes written rootID Hur Huw).
        rewrite Hug, Huop, Hufr, Hus. reflexivity. }
      split; [exact Hwa|]. split; [exact Ew|].
      intros Hsig. rewrite Ew. unfold bind.
      rewrite <- (forEach_watch_observer_emission started _ written)
        by (unfold has_variables; rewrite Hus; reflexivity).
      rewrite (forEach_initial_again started d); try reflexivity;
        try exact Hsig; [exact Hc|].
      unfold has_variables. rewrite Hus. reflexivity.
  - assert (Ew : _watch written = (Normal tt, written))
      by (unfold _watch, bind, get; now rewrite Hur).
    rewrite Ew. cbn [fst snd].
    split; [reflexivity|]. split; [exact Hug|]. split; [exact Hux|].
    split; [exact Huo|]. rewrite Hc.
    do 4 (split; [reflexivity|]). split; [discriminate|].
    split; [reflexivity|]. split; [intros rootID E; discriminate|].
    intros _. split; [reflexivity|]. split; [exact Huw | reflexivity].
Qed.

(** X4: When the write of a result without errors throws, the handler throws
    the store's error: no state is made and nothing is scheduled, the
    graph and the execution are as before, and the watch, stopped before
    the write, is not started again. *)
Theorem failed_write_leaves_state this x result e :
  result_errors result = [] ->
  write (_graph this)
    {| wi_id := _rootID this;
       wi_selectionSet := selectionSet (_operation this);
       wi_data := result_data result |} = inl e ->
  let that := snd (execution_observer x (Next result) this) in
  fst (execution_observer x (Next result) this) = Throw e
  /\ _state that = _state this
  /\ timers that = timers this
  /\ delivered that = delivered this
  /\ _graph that = _graph this
  /\ _execution that = _execution this
  /\ _watcher that = None.
Proof.
  intros He Hw that.
  assert (E : execution_observer x (Next result) this
              = (Throw e,
                 match _watcher this with
                 | Some _ => set_watcher None this
                 | None => this
                 end)).
  { unfold execution_observer, bind at 1. rewrite _stopWatching_run.
    replace (List.length (result_errors result) =? 0) with true
      by now rewrite He.
    unfold bind at 1, get. unfold bind at 1, graph_write, bind at 1, get.
    replace (write _ _) with (@inl Error (G * GraphQLObjectData) e);
      [reflexivity|].
    rewrite <- Hw. now destruct (_watcher this). }
  unfold that. rewrite E. simpl.
  destruct (_watcher this) eqn:Ew; repeat split; assumption.
Qed.

(** ** Observers *)

Lemma Observer_eqb_eq a b : Observer_eqb a b = true <-> a = b.
Proof.
  destruct a as [r n e], b as [r' n' e']. unfold Observer_eqb. simpl.
  rewrite !andb_true_iff, Nat.eqb_eq, !Bool.eqb_true_iff.
  split; [intros [[-> ->] ->]; reflexivity | intros H; now injection H].
Qed.

Lemma Observer_eqb_refl o : Observer_eqb o o = true.
Proof. now apply Observer_eqb_eq. Qed.

Lemma Observer_eqb_neq a b : a <> b -> Observer_eqb a b = false.
Proof.
  intros H. destruct (Observer_eqb a b) eqn:E; [|reflexivity].
  now apply Observer_eqb_eq in E.
Qed.

Lemma remove_first_absent o l : ~ In o l -> remove_first o l = l.
Proof.
  induction l as [|y l IH]; simpl; intros H; [reflexivity|].
  rewrite Observer_eqb_neq by (intros ->; apply H; now left).
  f_equal. apply IH. intros Hin. apply H. now right.
Qed.

Lemma remove_first_last o l : ~ In o l -> remove_first o (l ++ [o]) = l.
Proof.
  induction l as [|y l IH]; simpl; intros H.
  - now rewrite Observer_eqb_refl.
  - rewrite Observer_eqb_neq by (intros ->; apply H; now left).
    f_equal. apply IH. intros Hin. apply H. now right.
Qed.

Lemma remove_first_NoDup o l :
  NoDup l ->
  remove_first o l = filter (fun o' => negb (Observer_eqb o o')) l.
Proof.
  induction 1 as [|y l Hy Hl IH]; simpl; [reflexivity|].
  destruct (Observer_eqb o y) eqn:E; simpl.
  - apply Observer_eqb_eq in E. subst y.
    rewrite <- IH. symmetry. now apply remove_first_absent.
  - now rewrite IH.
Qed.


(** X6: Subscribing and unsubscribing at once leaves the observers as they
    were, yet the priming callback stays scheduled: the observer given
    to [_onSubscribe] is still called, once, with the current state.
    Unsubscribing an observer that is not registered changes nothing. *)
Theorem subscribe_then_unsubscribe this o :
  ~ In o (_observers this) ->
  let that := snd (unsubscribe o (snd (_onSubscribe o this))) in
  _observers that = _observers this
  /\ _state that = _state this
  /\ timers that = timers this ++ [PrimeTimer o]
  /\ _observers (snd (unsubscribe o this)) = _observers this
  /\ (timers this = [] -> has_next o = true ->
      delivered (snd (flush that))
      = delivered this ++ [NextCall o (_state this)]).
Proof.
  intros Hn that.
  unfold that, unsubscribe, _onSubscribe, bind, setTimeout, modify. simpl.
  split; [now apply remove_first_last|]. do 2 (split; [reflexivity|]).
  split; [now apply remove_first_absent|].
  intros Ht Ho. rewrite flush_run. simpl. rewrite Ht. simpl. now rewrite Ho.
Qed.

(** X7: An observer registered once is, after [unsubscribe], no longer among
    the observers, the others keep their order, and neither an update
    nor an error schedules a callback for it any more. *)
Theorem unsubscribed_observer_is_left_out this o p e :
  NoDup (_observers this) ->
  let that := snd (unsubscribe o this) in
  _observers that
  = filter (fun o' => negb (Observer_eqb o o')) (_observers this)
  /\ ~ In o (_observers that)
  /\ (forall t, In t (timers (snd (_updateState p that))) ->
        In t (timers this) \/ timer_observer t <> o)
  /\ (forall t, In t (timers (snd (_error e that))) ->
        In t (timers this) \/ timer_observer t <> o).
Proof.
  intros Hd that.
  assert (Ho : _observers that
               = filter (fun o' => negb (Observer_eqb o o')) (_observers this))
    by (unfold that, unsubscribe, modify; simpl; now apply remove_first_NoDup).
  assert (Hn : ~ In o (_observers that)).
  { rewrite Ho. intros Hin. apply filter_In in Hin. destruct Hin as [_ Hin].
    now rewrite Observer_eqb_refl in Hin. }
  split; [exact Ho | split; [exact Hn|]].
  split; intros t Hin.
  - rewrite _updateState_run in Hin. simpl in Hin.
    apply in_app_or in Hin. destruct Hin as [Hin|Hin]; [now left|].
    apply in_map_iff in Hin. destruct Hin as (o' & <- & Hin).
    right. simpl. intros ->. now apply Hn.
  - rewrite _error_run in Hin. simpl in Hin.
    apply in_app_or in Hin. destruct Hin as [Hin|Hin]; [now left|].
    apply in_map_iff in Hin. destruct Hin as (o' & <- & Hin).
    right. simpl. intros ->. now apply Hn.
Qed.


(** X13: An executor that sends its result and completes while it is being
    subscribed to leaves the operation neither loading nor executing
    when [execute] returns, and no pending callback hands a loading
    state to an observer. *)
Theorem synchronous_executor_skips_loading this v result :
  reachable this ->
  _execution this = None ->
  _executor this
    {| eo_operation := _operation this;
       eo_fragments := _fragments this;
       eo_variables := or_else v (variables (getState this)) |}
  = [Next result; Complete] ->
  fst (execute v this) = Normal tt ->
  let that := after (CallExecute v) this in
  loading (getState that) = false
  /\ executing (getState that) = false
  /\ (forall o s,
        In (NextCall o s) (flat_map (calls_of (_state that)) (timers that)) ->
        loading (value s) = false /\ executing (value s) = false).
Proof.
  intros Hr Hx He Hn that.
  assert (Hs : loading (getState that) = false
               /\ executing (getState that) = false).
  { assert (E : exists this2,
               execute v this
               = (Normal tt,
                  set_execution
                    (Some {| x_variables :=
                               or_else v (variables (getState this)) |})
                    (snd (_updateState
                            {| p_loading := Some false;
                               p_executing := Some false;
                               p_variables := None; p_canonical := None;
                               p_stale := None; p_errors := None;
                               p_data := None |} this2)))).
    { remember (execute v this) as r eqn:Er. unfold getState in *.
      unfold execute, bind at 1, get in Er. rewrite Hx in Er.
      unfold bind at 1 in Er. rewrite _updateState_run in Er.
      unfold bind at 1 in Er. rewrite He in Er. cbn [forEach] in Er.
      unfold bind at 1 in Er.
      destruct (execution_observer _ (Next result) _) as [[[]|e] this2];
        [|subst r; discriminate].
      exists this2. unfold bind at 1 in Er. cbn [execution_observer] in Er.
      rewrite _updateState_run in Er. rewrite Er. now rewrite _updateState_run. }
    destruct E as (this2 & E). unfold that, after, handle. rewrite E.
    rewrite _updateState_run. now split. }
  split; [exact (proj1 Hs) | split; [exact (proj2 Hs)|]].
  intros o s Hin.
  assert (Hr' : reachable that) by now apply reachable_after.
  destruct (reachable_Inv that Hr') as [(_ & _ & _ & Hp) _].
  rewrite (calls_of_punctual _ _ o s Hp Hin). exact Hs.
Qed.

(** ** The variables of the state *)










Lemma run_snoc evs ev this : run (evs ++ [ev]) this = after ev (run evs this).
Proof.
  revert this. induction evs as [|ev' evs IH]; intros this; [reflexivity|].
  cbn [run app]. apply IH.
Qed.



(** Every reachable instance is a new instance after some events. *)
Lemma reachable_run this :
  reachable this ->
  exists graph executor operation_node fragments initialVariables evs,
    this = run evs (snd (constructor graph executor operation_node fragments
                           initialVariables)).
Proof.
  induction 1 as [graph executor operation_node fragments initialVariables
                 | ev this Hr IH].
  - exists graph, executor, operation_node, fragments, initialVariables, [].
    reflexivity.
  - destruct IH as (graph & executor & operation_node & fragments
                    & initialVariables & evs & ->).
    exists graph, executor, operation_node, fragments, initialVariables,
      (evs ++ [ev]).
    now rewrite run_snoc.
Qed.


End Properties.

(** ** Runs on the test store *)

(** C1 (the code departs from it): when the graph read throws a partial
    read error, [maybeExecute] is to call [execute], and to throw again
    any other error.  The code does the opposite.  On an empty store the
    read throws a partial read error, and [maybeExecute] throws it to its
    caller, the instance untouched and no execution started; on a broken
    store the read throws another error, and [maybeExecute] swallows it
    and executes. *)
Theorem maybeExecute_rethrows_partial_read_error :
  _partialRead partial_read_error = true
  /\ maybeExecute (Some (VariablesObject 1)) fresh_abc
     = (Throw partial_read_error, fresh_abc)
  /\ _partialRead broken_store_error = false
  /\ (let broken := after (StoreChanges BrokenGraph) fresh_abc in
      maybeExecute (Some (VariablesObject 1)) broken
      = execute (Some (VariablesObject 1)) broken
      /\ fst (maybeExecute (Some (VariablesObject 1)) broken) = Normal tt
      /\ _execution (snd (maybeExecute (Some (VariablesObject 1)) broken))
         = Some {| x_variables := VariablesObject 1 |}).
Proof. repeat split; reflexivity. Qed.

(** C2 (the code departs from it): constructing an operation for a
    mutation is to throw 'Mutations may not be observed.'.  The
    constructor has no such check: for every mutation it returns
    normally, with a null root ID and no watcher, as it returns for a
    query and for a subscription. *)
Theorem constructor_accepts_mutation
  {G : Type} {store : ReduxGraphStore G}
  (graph : G) (executor : ExecutorFn) (selection : SelectionSetNode)
  (fragments : option FragmentMap) (initialVariables : option Variables) :
  let made :=
    constructor graph executor
      {| operation := mutation; selectionSet := selection |}
      fragments initialVariables in
  fst made = Normal tt
  /\ _rootID (snd made) = None
  /\ _watcher (snd made) = None
  /\ getState (snd made)
     = {| loading := false; executing := false;
          variables := or_else initialVariables DefaultInitialVariables;
          canonical := false; stale := false; errors := []; data := None |}
  /\ (forall kind,
        fst (constructor graph executor
               {| operation := kind; selectionSet := selection |}
               fragments initialVariables) = Normal tt).
Proof.
  do 4 (split; [reflexivity|]). intros kind. apply constructor_returns.
Qed.

(** C3 (the code departs from it): once the executor's observable has
    completed, [execute] is to be callable again.  The [complete]
    handler sets [loading] and [executing] to false but leaves
    [_execution] set, so the next [execute] throws. *)
Theorem execute_throws_after_complete :
  let running := after (CallExecute None) fresh_abc in
  let finished := after (ExecutorSends Complete) running in
  fst (execute None fresh_abc) = Normal tt
  /\ fst (execute None running) = Throw already_executing
  /\ executing (getState finished) = false
  /\ loading (getState finished) = false
  /\ _execution finished = Some {| x_variables := DefaultInitialVariables |}
  /\ fst (execute None finished) = Throw already_executing
  /\ fst (execute (Some (VariablesObject 1)) finished)
     = Throw already_executing.
Proof. repeat split; reflexivity. Qed.



Lemma errored_result_is_not_written_witness :
  let handled :=
    execution_observer {| x_variables := VariablesObject 1 |}
      (Next errored_result)
      (after (CallExecute (Some (VariablesObject 1))) fresh_abc) in
  _graph (snd handled) = EmptyGraph
  /\ _watcher (snd handled) = None
  /\ _watcher
       (snd (forEach [Err broken_store_error; Complete]
               (execution_observer {| x_variables := VariablesObject 1 |})
               (snd handled))) = None.
Proof.
  pose proof (errored_result_is_not_written
                (after (CallExecute (Some (VariablesObject 1))) fresh_abc)
                {| x_variables := VariablesObject 1 |} errored_result
                [Err broken_store_error; Complete]
                ltac:(discriminate) eq_refl) as (_ & Hg & _ & Hw & Hl).
  split; [exact Hg | split; [exact Hw | exact Hl]].
Defined.

Lemma executing_false_implies_loading_false_witness :
  let finished :=
    after (ExecutorSends Complete) (after (CallExecute None) fresh_abc) in
  executing (getState finished) = false
  /\ loading (getState finished) = false.
Proof.
  split; [reflexivity|].
  apply (executing_false_implies_loading_false
           (after (ExecutorSends Complete)
              (after (CallExecute None) fresh_abc))).
  - apply reachable_after, reachable_after, reachable_new.
  - reflexivity.
Defined.


Lemma watch_emission_handled_witness :
  let result := {| read_data := 7; read_stale := false |} in
  let written :=
    snd (_stopWatching
           (snd (execution_observer {| x_variables := VariablesObject 1 |}
                   (Next clean_result)
                   (after (CallExecute (Some (VariablesObject 1)))
                      fresh_abc)))) in
  reachable fresh_abc
  /\ _watcher fresh_abc
     = Some {| w_variables := DefaultInitialVariables;
               w_initialData := None |}
  /\ getState (after (WatchSends (Next result)) fresh_abc)
     = {| loading := false; executing := false;
          variables := DefaultInitialVariables;
          canonical := false; stale := false; errors := [];
          data := Some 7 |}
  /\ watch (_graph written)
       {| wa_id := "query";
          wa_selectionSet := selectionSet (_operation written);
          wa_fragments := _fragments written;
          wa_variables := variables (getState written);
          wa_initialData := data (getState written) |}
     = [Next result]
  /\ _state (snd (_watch written)) = _state written
  /\ timers (snd (_watch written)) = timers written.
Proof.
  assert (Hr : reachable fresh_abc) by apply reachable_new.
  split; [exact Hr|]. split; [reflexivity|].
  pose proof (watch_emission_handled fresh_abc
                {| w_variables := DefaultInitialVariables;
                   w_initialData := None |}
                {| read_data := 7; read_stale := false |})
    as (_ & _ & _ & _ & H & _).
  destruct (H Hr eq_refl) as (_ & _ & Hs).
  split; [exact (Hs eq_refl)|]. split; [reflexivity|].
  pose proof (watch_emission_handled
                (snd (_stopWatching
                        (snd (execution_observer
                                {| x_variables := VariablesObject 1 |}
                                (Next clean_result)
                                (after (CallExecute (Some (VariablesObject 1)))
                                   fresh_abc)))))
                {| w_variables := DefaultInitialVariables;
                   w_initialData := None |}
                {| read_data := 7; read_stale := false |})
    as (_ & _ & _ & _ & _ & Hw).
  rewrite (Hw "query" eq_refl eq_refl). split; reflexivity.
Defined.

Lemma executor_error_only_notifies_witness :
  let running := after (CallExecute None) observed_abc in
  let that :=
    snd (execution_observer {| x_variables := DefaultInitialVariables |}
           (Err broken_store_error) running) in
  In an_observer (_observers running)
  /\ getState that = getState running
  /\ _execution that = _execution running
  /\ In (ErrorCall an_observer broken_store_error)
       (delivered (snd (flush that))).
Proof.
  pose proof (executor_error_only_notifies
                (after (CallExecute None) observed_abc)
                {| x_variables := DefaultInitialVariables |}
                broken_store_error)
    as (_ & Hs & Hx & _ & _ & _ & _ & He & _).
  split; [now left|]. split; [unfold getState; now rewrite Hs|].
  split; [exact Hx|]. apply He; [now left | reflexivity].
Defined.

Lemma priming_delivers_state_at_delivery_witness :
  let that :=
    snd (_updateState now_loading (snd (_onSubscribe an_observer fresh_abc))) in
  has_next an_observer = true
  /\ timers fresh_abc = []
  /\ delivered (snd (flush that))
     = [NextCall an_observer (_state that);
        NextCall an_observer (_state that)].
Proof.
  split; [reflexivity|]. split; [reflexivity|].
  pose proof (priming_delivers_state_at_delivery fresh_abc an_observer
                now_loading eq_refl eq_refl) as (_ & _ & _ & _ & _ & H).
  exact H.
Defined.

(** ** Runs of the other paths *)

Lemma stopExecuting_stops_witness :
  let running := after (CallExecute None) fresh_abc in
  let stopped := snd (stopExecuting running) in
  _execution running <> None
  /\ _execution stopped = None
  /\ stopExecuting stopped = (Normal tt, stopped)
  /\ fst (execute None stopped) = Normal tt.
Proof.
  pose proof (stopExecuting_stops (after (CallExecute None) fresh_abc))
    as (_ & Hx & _ & _ & _ & _ & _ & _ & _ & _ & _ & _ & Hs & He).
  split; [discriminate|]. split; [exact Hx|]. split; [exact Hs|].
  apply He. reflexivity.
Defined.

Lemma maybeExecute_reads_from_graph_witness :
  let that := snd (maybeExecute (Some (VariablesObject 1)) cached_abc) in
  fst (maybeExecute (Some (VariablesObject 1)) cached_abc) = Normal tt
  /\ _execution that = None
  /\ _watcher that
     = Some {| w_variables := VariablesObject 1; w_initialData := Some 5 |}
  /\ canonical (getState that) = false.
Proof.
  pose proof (maybeExecute_reads_from_graph cached_abc
                (Some (VariablesObject 1)) "query"
                {| read_data := 5; read_stale := false |}
                eq_refl eq_refl eq_refl)
    as (Hn & Hx & _ & _ & Hw & _ & Hc & _).
  split; [exact Hn|]. split; [exact Hx|]. split; [exact Hw | exact Hc].
Defined.

Lemma clean_result_is_written_witness :
  let running := after (CallExecute (Some (VariablesObject 1))) fresh_abc in
  let that :=
    snd (execution_observer {| x_variables := VariablesObject 1 |}
           (Next clean_result) running) in
  let mutating := after (CallExecute None) fresh_mutation in
  let mutated :=
    snd (execution_observer {| x_variables := DefaultInitialVariables |}
           (Next clean_result) mutating) in
  _graph that = Holding 7
  /\ _watcher that
     = Some {| w_variables := VariablesObject 1; w_initialData := Some 7 |}
  /\ getState that
     = {| loading := false; executing := true;
          variables := VariablesObject 1;
          canonical := true; stale := false; errors := [];
          data := Some 7 |}
  /\ _rootID mutating = None
  /\ _graph mutated = Holding 7
  /\ _watcher mutated = None
  /\ canonical (getState mutated) = true.
Proof.
  pose proof (clean_result_is_written
                (after (CallExecute (Some (VariablesObject 1))) fresh_abc)
                {| x_variables := VariablesObject 1 |} clean_result
                (Holding 7) 7 eq_refl eq_refl)
    as (_ & Hg & _ & _ & _ & _ & _ & _ & _ & _ & Hrooted & _).
  destruct (Hrooted "query" eq_refl) as (Hw & _ & Hs).
  split; [exact Hg|]. split; [exact Hw|].
  split; [apply Hs; repeat constructor|].
  pose proof (clean_result_is_written
                (after (CallExecute None) fresh_mutation)
                {| x_variables := DefaultInitialVariables |} clean_result
                (Holding 7) 7 eq_refl eq_refl)
    as (_ & Hg' & _ & _ & _ & _ & _ & _ & _ & _ & _ & Hmutation).
  destruct (Hmutation eq_refl) as (_ & Hw' & Hs').
  split; [reflexivity|]. split; [exact Hg'|]. split; [exact Hw'|].
  now rewrite Hs'.
Defined.

Lemma failed_write_leaves_state_witness :
  let running :=
    after (StoreChanges BrokenGraph) (after (CallExecute None) fresh_abc) in
  let that :=
    snd (execution_observer {| x_variables := DefaultInitialVariables |}
           (Next clean_result) running) in
  fst (execution_observer {| x_variables := DefaultInitialVariables |}
         (Next clean_result) running) = Throw broken_store_error
  /\ _state that = _state running
  /\ _watcher running <> None
  /\ _watcher that = None.
Proof.
  pose proof (failed_write_leaves_state
                (after (StoreChanges BrokenGraph)
                   (after (CallExecute None) fresh_abc))
                {| x_variables := DefaultInitialVariables |} clean_result
                broken_store_error eq_refl eq_refl)
    as (Ht & Hs & _ & _ & _ & _ & Hw).
  split; [exact Ht|]. split; [exact Hs|]. split; [discriminate | exact Hw].
Defined.

Lemma only_expected_errors_witness :
  reachable fresh_abc
  /\ fst (handle (CallMaybeExecute None) fresh_abc) = Throw partial_read_error
  /\ (partial_read_error = already_executing
      \/ store_error partial_read_error)
  /\ reachable stuck_abc
  /\ _execution stuck_abc = None
  /\ fst (handle (ExecutorSendsTo {| x_variables := DefaultInitialVariables |}
                    (Next clean_result)) stuck_abc)
     = Throw broken_store_error
  /\ (broken_store_error = already_executing
      \/ store_error broken_store_error).
Proof.
  assert (Hr : reachable fresh_abc) by apply reachable_new.
  assert (Hs : reachable stuck_abc) by apply reachable_after, reachable_new.
  split; [exact Hr|]. split; [reflexivity|]. split.
  - exact (only_expected_errors fresh_abc (CallMaybeExecute None)
             partial_read_error fresh_abc Hr eq_refl).
  - split; [exact Hs|]. do 2 (split; [reflexivity|]).
    exact (only_expected_errors stuck_abc
             (ExecutorSendsTo {| x_variables := DefaultInitialVariables |}
                (Next clean_result))
             broken_store_error
             (snd (handle (ExecutorSendsTo
                             {| x_variables := DefaultInitialVariables |}
                             (Next clean_result)) stuck_abc))
             Hs eq_refl).
Defined.

Lemma subscribe_then_unsubscribe_witness :
  let that :=
    snd (unsubscribe an_observer (snd (_onSubscribe an_observer fresh_abc))) in
  ~ In an_observer (_observers fresh_abc)
  /\ _observers that = []
  /\ delivered (snd (flush that)) = [NextCall an_observer (_state fresh_abc)].
Proof.
  assert (Hn : ~ In an_observer (_observers fresh_abc)) by (intros []).
  pose proof (subscribe_then_unsubscribe fresh_abc an_observer Hn)
    as (Ho & _ & _ & _ & Hd).
  split; [exact Hn|]. split; [exact Ho|]. exact (Hd eq_refl eq_refl).
Defined.

Lemma unsubscribed_observer_is_left_out_witness :
  let that := snd (unsubscribe an_observer twice_observed_abc) in
  NoDup (_observers twice_observed_abc)
  /\ _observers that = [another_observer]
  /\ ~ In an_observer (_observers that).
Proof.
  assert (Hd : NoDup (_observers twice_observed_abc)).
  { repeat constructor; simpl; [|tauto].
    intros [H|[]]. discriminate. }
  pose proof (unsubscribed_observer_is_left_out twice_observed_abc
                an_observer now_loading broken_store_error Hd)
    as (Ho & Hn & _).
  split; [exact Hd|]. split; [exact Ho | exact Hn].
Defined.


Lemma stale_state_is_not_canonical_witness :
  let watched :=
    after (WatchSends (Next {| read_data := 9; read_stale := true |}))
      fresh_abc in
  stale (getState watched) = true
  /\ canonical (getState watched) = false.
Proof.
  split; [reflexivity|].
  apply (stale_state_is_not_canonical
           (after (WatchSends (Next {| read_data := 9; read_stale := true |}))
              fresh_abc)).
  - apply reachable_after, reachable_new.
  - reflexivity.
Defined.

Lemma state_without_data_is_pristine_witness :
  let running := after (CallExecute None) fresh_abc in
  data (getState running) = None
  /\ canonical (getState running) = false
  /\ stale (getState running) = false
  /\ errors (getState running) = [].
Proof.
  split; [reflexivity|].
  apply (state_without_data_is_pristine (after (CallExecute None) fresh_abc)).
  - apply reachable_after, reachable_new.
  - reflexivity.
Defined.

Lemma states_are_delivered_in_order_witness :
  let that :=
    after TimerFires
      (after TimerFires (after (CallExecute None) observed_abc)) in
  next_refs (delivered that) = [1; 1]
  /\ StronglySorted le (next_refs (delivered that)).
Proof.
  split; [reflexivity|].
  apply (states_are_delivered_in_order
           (after TimerFires
              (after TimerFires (after (CallExecute None) observed_abc)))).
  do 4 apply reachable_after. apply reachable_new.
Defined.

Lemma fired_callback_delivers_current_state_witness :
  let running := after (CallExecute None) observed_abc in
  reachable running
  /\ exists calls,
       delivered (after TimerFires running) = delivered running ++ calls
       /\ _state (after TimerFires running) = _state running
       /\ forall o s, In (NextCall o s) calls -> s = _state running.
Proof.
  assert (Hr : reachable (after (CallExecute None) observed_abc))
    by (do 2 apply reachable_after; apply reachable_new).
  split; [exact Hr|].
  exact (fired_callback_delivers_current_state
           (after (CallExecute None) observed_abc) Hr).
Defined.

Lemma synchronous_executor_skips_loading_witness :
  let that := after (CallExecute None) synchronous_abc in
  fst (execute None synchronous_abc) = Normal tt
  /\ loading (getState that) = false
  /\ executing (getState that) = false
  /\ canonical (getState that) = true.
Proof.
  assert (Hr : reachable synchronous_abc)
    by (apply reachable_after, reachable_new).
  pose proof (synchronous_executor_skips_loading synchronous_abc None
                clean_result Hr eq_refl eq_refl eq_refl) as (Hl & Hx & _).
  split; [reflexivity|]. split; [exact Hl|]. split; [exact Hx | reflexivity].
Defined.
